(** * Game-night buzzer on the Raspberry Pi Pico: a model of [main.py]

    The six-button buzzer game is embedded as a state machine over the
    fields of [BuzzerGame], running on a small model of the board: a
    microsecond clock, a PWM channel, and a log of the device calls the
    program makes (I2C bytes, delays, PWM settings, LED pin writes,
    console lines).  Python exceptions are results that keep the state
    reached when they were raised. *)

From Stdlib Require Import ZArith Lia String Ascii List Bool DecimalString.
From stdpp Require Import base list strings.
Import ListNotations.
Local Open Scope Z_scope.

(** ** MicroPython's tick counter *)

Module Ticks.

(** [time.ticks_ms()] wraps around at [TICKS_PERIOD]; [time.ticks_diff]
    is the signed distance on that ring.  Both belong to MicroPython's
    [time] module, which the scripts import. *)
Definition TICKS_PERIOD : Z := 2 ^ 30.

Definition ticks_of_us (us : Z) : Z := (us / 1000) mod TICKS_PERIOD.

Definition ticks_diff (a b : Z) : Z :=
  (a - b + TICKS_PERIOD / 2) mod TICKS_PERIOD - TICKS_PERIOD / 2.

End Ticks.
Export Ticks.

(** ** Exceptions, device calls and the board *)

Inductive exn : Type :=
| OSError            (* bus fault on an I2C transfer *)
| ValueError         (* argument rejected by a device call *)
| IndexError         (* list index out of range *)
| KeyboardInterrupt. (* operator break; not an [Exception] *)

(** [except Exception] catches everything but [KeyboardInterrupt]. *)
Definition is_Exception (e : exn) : bool :=
  match e with KeyboardInterrupt => false | _ => true end.

(** The handlers print [str(e)], the text the raising call gave the
    exception; that text is not part of the board, and the class name
    stands in for it. *)
Definition exn_name (e : exn) : string :=
  match e with
  | OSError => "OSError" | ValueError => "ValueError"
  | IndexError => "IndexError" | KeyboardInterrupt => "KeyboardInterrupt"
  end.

Inductive Event : Type :=
| I2cWrite (addr byte : Z)      (* i2c.writeto(addr, bytes([byte])) *)
| SleepMs (ms : Z)              (* time.sleep_ms *)
| SleepUs (us : Z)              (* time.sleep_us *)
| PwmFreq (hz : Z)              (* pwm.freq *)
| PwmDuty (duty : Z)            (* pwm.duty_u16 *)
| PinWrite (gpio level : Z)     (* pin.value(level) on an LED pin *)
| Print (line : string).        (* print(...) *)

Global Instance exn_eq_dec : EqDecision exn.
Proof. solve_decision. Defined.
Global Instance Event_eq_dec : EqDecision Event.
Proof. solve_decision. Defined.

(** The board.  [faults] is the fate of the coming fallible device calls,
    first call first: [Some e] makes the call raise [e], [None] lets it
    through, and past the end of the list every call succeeds. *)
Record Hw : Type := mkHw {
  clock_us : Z;
  pwm_hz   : Z;
  pwm_duty : Z;
  faults   : list (option exn)
}.

Definition ticks_now (h : Hw) : Z := ticks_of_us (clock_us h).

(** ** Programs: state, exceptions and the log of device calls *)

Inductive Res (A : Type) : Type :=
| Ok (a : A)
| Raise (e : exn).
Arguments Ok {A} a.
Arguments Raise {A} e.

Record Out (S A : Type) : Type := mkOut {
  res : Res A;
  st  : S;
  evs : list Event
}.
Arguments mkOut {S A} res st evs.
Arguments res {S A} o.
Arguments st {S A} o.
Arguments evs {S A} o.

Definition M (S A : Type) : Type := S -> Out S A.

Definition ret {S A} (a : A) : M S A := fun s => mkOut (Ok a) s [].

Definition raise {S A} (e : exn) : M S A := fun s => mkOut (Raise e) s [].

(** [o] with the calls [l] made before it. *)
Definition prepend {S A} (l : list Event) (o : Out S A) : Out S A :=
  mkOut (res o) (st o) (l ++ evs o).

Definition bind {S A B} (m : M S A) (f : A -> M S B) : M S B := fun s =>
  let o := m s in
  match res o with
  | Ok a => prepend (evs o) (f a (st o))
  | Raise e => mkOut (Raise e) (st o) (evs o)
  end.

(** [try: m  except Exception as e: h e] *)
Definition try_except {S} (m : M S unit) (h : exn -> M S unit) : M S unit := fun s =>
  let o := m s in
  match res o with
  | Ok a => o
  | Raise e =>
      if is_Exception e then prepend (evs o) (h e (st o)) else o
  end.

Definition gets {S A} (f : S -> A) : M S A := fun s => mkOut (Ok (f s)) s [].
Definition modify {S} (f : S -> S) : M S unit := fun s => mkOut (Ok tt) (f s) [].
Definition emit {S} (ev : Event) : M S unit := fun s => mkOut (Ok tt) s [ev].

Declare Scope prog_scope.
Delimit Scope prog_scope with prog.
Notation "x <- m ;; k" := (bind m (fun x => k))
  (at level 100, m at next level, k at level 200, right associativity) : prog_scope.
Notation "m ;; k" := (bind m (fun _ => k))
  (at level 100, k at level 200, right associativity) : prog_scope.
Local Open Scope prog_scope.

(** [for x in l: body x] *)
Fixpoint for_each {S A} (l : list A) (body : A -> M S unit) : M S unit :=
  match l with
  | [] => ret tt
  | x :: l' => body x ;; for_each l' body
  end.

(** ** Device calls *)

(** A fallible device call: it is logged, then either raises as [faults]
    says (leaving the device as it was) or takes effect. *)
Definition device (ev : Event) (effect : Hw -> Hw) : M Hw unit := fun h =>
  match faults h with
  | Some e :: rest =>
      mkOut (Raise e) (mkHw (clock_us h) (pwm_hz h) (pwm_duty h) rest) [ev]
  | None :: rest =>
      mkOut (Ok tt) (effect (mkHw (clock_us h) (pwm_hz h) (pwm_duty h) rest)) [ev]
  | [] => mkOut (Ok tt) (effect h) [ev]
  end.

Definition advance (us : Z) (h : Hw) : Hw :=
  mkHw (clock_us h + Z.max 0 us) (pwm_hz h) (pwm_duty h) (faults h).

Definition sleep_ms (ms : Z) : M Hw unit := device (SleepMs ms) (advance (1000 * ms)).
Definition sleep_us (us : Z) : M Hw unit := device (SleepUs us) (advance us).

Definition i2c_writeto (addr byte : Z) : M Hw unit := device (I2cWrite addr byte) id.

Definition pwm_freq (hz : Z) : M Hw unit :=
  device (PwmFreq hz) (fun h => mkHw (clock_us h) hz (pwm_duty h) (faults h)).
Definition pwm_duty_u16 (d : Z) : M Hw unit :=
  device (PwmDuty d) (fun h => mkHw (clock_us h) (pwm_hz h) d (faults h)).

Definition print {S} (line : string) : M S unit := emit (Print line).

Definition ticks_ms : M Hw Z := gets ticks_now.

(** ** Python strings and lists *)

Definition len (s : string) : Z := Z.of_nat (String.length s).

(** [s[:k]]; a negative [k] counts from the end. *)
Definition slice_to (s : string) (k : Z) : string :=
  if 0 <=? k then substring 0 (Z.to_nat k) s
  else substring 0 (Z.to_nat (len s + k)) s.

(** [s * n]; empty when [n <= 0]. *)
Definition str_mul (s : string) (n : Z) : string :=
  Nat.iter (Z.to_nat n) (String.append s) EmptyString.

Definition ord (c : ascii) : Z := Z.of_N (N_of_ascii c).

(** ** User configuration of [main.py] *)

Definition TEAM_NAMES : list string :=
  ["Team 1"; "Team 2"; "Team 3"; "Team 4"; "Team 5"; "Team 6"]%string.
Definition BTN_PINS : list Z := [16; 17; 19; 20; 21; 22].
Definition LED_PINS : list Z := [6; 7; 8; 9; 10; 11].
Definition DEBOUNCE_MS : Z := 80.
Definition TIMEOUT_S : Z := 8.
Definition RESET_COOLDOWN_MS : Z := 400.
Definition LCD_ADDR : Z := 0x27.
Definition LCD_COLS : Z := 16.
Definition LCD_ROWS : Z := 2.
Definition VOLUME_DUTY : Z := 32768.
Definition LED_ACTIVE_HIGH : bool := true.

(** ** The HD44780 driver behind a PCF8574 expander *)

Module I2cLcd.

Definition MASK_RS : Z := 0x01.
Definition MASK_RW : Z := 0x02.
Definition MASK_E  : Z := 0x04.
Definition MASK_BL : Z := 0x08.

Record t : Type := mk { addr : Z; cols : Z; rows : Z; bl : Z }.

(** [bytes([v])] raises [ValueError] unless [0 <= v < 256]. *)
Definition _write_byte (self : t) (val : Z) : M Hw unit :=
  let b := Z.lor val (bl self) in
  if (0 <=? b) && (b <? 256) then i2c_writeto (addr self) b else raise ValueError.

Definition _pulse_e (self : t) (data : Z) : M Hw unit :=
  _write_byte self (Z.lor data MASK_E) ;;
  sleep_us 1 ;;
  _write_byte self (Z.land data (Z.lnot MASK_E)) ;;
  sleep_us 50.

Definition _send_nibble (self : t) (nibble rs : Z) : M Hw unit :=
  let data := Z.land (Z.shiftl nibble 4) 0xF0 in
  let data := if rs =? 0 then data else Z.lor data MASK_RS in
  _pulse_e self data.

Definition _send_byte (self : t) (val rs : Z) : M Hw unit :=
  _send_nibble self (Z.shiftr val 4) rs ;;
  _send_nibble self (Z.land val 0x0F) rs.

Definition command (self : t) (cmd : Z) : M Hw unit :=
  _send_byte self cmd 0 ;;
  if (cmd =? 0x01) || (cmd =? 0x02) then sleep_ms 2 else ret tt.

Definition write_char (self : t) (ch : Z) : M Hw unit := _send_byte self ch 1.

Definition write (self : t) (s : string) : M Hw unit :=
  for_each (list_ascii_of_string s) (fun c => write_char self (ord c)).

Definition clear (self : t) : M Hw unit := command self 0x01.
Definition home (self : t) : M Hw unit := command self 0x02.

Definition set_cursor (self : t) (col : Z) (row : nat) : M Hw unit :=
  let row_offsets := [0x00; 0x40; 0x00 + cols self; 0x40 + cols self] in
  match row_offsets !! row with
  | Some off => command self (Z.lor 0x80 (off + col))
  | None => raise IndexError
  end.

Definition __init__ (addr cols rows : Z) : M Hw t :=
  let self := mk addr cols rows MASK_BL in
  _write_byte self 0 ;; sleep_ms 50 ;;
  _send_nibble self 0x03 0 ;; sleep_ms 5 ;;
  _send_nibble self 0x03 0 ;; sleep_us 150 ;;
  _send_nibble self 0x03 0 ;; _send_nibble self 0x02 0 ;;
  command self 0x28 ;;
  command self 0x08 ;;
  command self 0x01 ;;
  sleep_ms 2 ;;
  command self 0x06 ;;
  command self 0x0C ;;
  ret self.

End I2cLcd.

(** ** Helper UI *)

Definition center (text : string) (width : Z) : string :=
  if width <=? len text then slice_to text width
  else
    let pad := (width - len text) / 2 in
    (str_mul " " pad ++ text ++ str_mul " " (width - len text - pad))%string.

Definition lcd_ready (lcd : I2cLcd.t) : M Hw unit :=
  I2cLcd.clear lcd ;;
  I2cLcd.set_cursor lcd 0 0 ;; I2cLcd.write lcd (center "READY" LCD_COLS) ;;
  I2cLcd.set_cursor lcd 0 1 ;; I2cLcd.write lcd (center "Press a button" LCD_COLS).

Definition lcd_winner (lcd : I2cLcd.t) (name : string) : M Hw unit :=
  I2cLcd.clear lcd ;;
  I2cLcd.set_cursor lcd 0 0 ;; I2cLcd.write lcd (center (name ++ " WINS!") LCD_COLS) ;;
  I2cLcd.set_cursor lcd 0 1 ;; I2cLcd.write lcd (center "Wait/Reset to play" LCD_COLS).

(** ** Buzzer helpers *)

Definition C5 : Z := 523.
Definition D5 : Z := 587.
Definition E5 : Z := 659.
Definition F5 : Z := 698.
Definition G5 : Z := 784.
Definition A5 : Z := 880.
Definition B5 : Z := 988.
Definition C6 : Z := 1047.
Definition D6 : Z := 1175.
Definition E6 : Z := 1319.
Definition F6 : Z := 1397.
Definition G6 : Z := 1568.
Definition A6 : Z := 1760.

(** A tone sequence: (frequency, duration, gap) triples. *)
Definition Melody : Type := list (Z * Z * Z).

Module Buzzer.

Record t : Type := mk { volume : Z }.

Definition __init__ (volume : Z) : M Hw t :=
  pwm_duty_u16 0 ;;
  ret (mk (Z.max 0 (Z.min 65535 volume))).

Definition silence (self : t) (ms : Z) : M Hw unit :=
  pwm_duty_u16 0 ;;
  sleep_ms ms.

Definition tone (self : t) (freq ms : Z) : M Hw unit :=
  if freq <=? 0 then silence self ms
  else
    pwm_freq freq ;;
    pwm_duty_u16 (volume self) ;;
    sleep_ms ms ;;
    pwm_duty_u16 0.

Definition play (self : t) (seq : Melody) : M Hw unit :=
  for_each seq (fun '(f, d, g) =>
    tone self f d ;;
    if g =? 0 then ret tt else silence self g).

End Buzzer.

Definition START_CHIME : Melody := [ (C5,90,10); (E5,90,10); (G5,120,0) ].

Definition MELODIES : list Melody := [
  [(E5,120,15); (G5,120,15); (C6,160,0)];
  [(C6,120,15); (G5,120,15); (E5,160,0)];
  [(D5,100,10); (F5,100,10); (A5,140,0)];
  [(F5,100,10); (A5,100,10); (D6,140,0)];
  [(G5,100,10); (B5,100,10); (E6,140,0)];
  [(A5,100,10); (C6,100,10); (F6,140,0)]
].

(** ** Main app *)

(** An LED output: a [Pin] object with the level last written to it. *)
Record Pin : Type := mkPin { gpio : Z; level : Z }.

(** The fields of a [BuzzerGame] object. *)
Record BuzzerGame : Type := mkGame {
  lcd                : I2cLcd.t;
  buzzer             : Buzzer.t;
  leds               : list Pin;
  round_open         : bool;
  winner_idx         : option nat;
  win_ts             : Z;
  last_edge          : list Z;
  last_r             : Z;
  reset_requested    : bool;
  last_reset_handled : Z
}.

(** The running program: the game object and the board it drives. *)
Record World : Type := mkWorld { self : BuzzerGame; board : Hw }.

Definition lift {A} (m : M Hw A) : M World A := fun w =>
  let o := m (board w) in mkOut (res o) (mkWorld (self w) (st o)) (evs o).

Definition get {A} (f : BuzzerGame -> A) : M World A := gets (fun w => f (self w)).
Definition update (f : BuzzerGame -> BuzzerGame) : M World unit :=
  modify (fun w => mkWorld (f (self w)) (board w)).

Definition set_leds v g :=
  mkGame (lcd g) (buzzer g) v (round_open g) (winner_idx g) (win_ts g)
         (last_edge g) (last_r g) (reset_requested g) (last_reset_handled g).
Definition set_round_open v g :=
  mkGame (lcd g) (buzzer g) (leds g) v (winner_idx g) (win_ts g)
         (last_edge g) (last_r g) (reset_requested g) (last_reset_handled g).
Definition set_winner_idx v g :=
  mkGame (lcd g) (buzzer g) (leds g) (round_open g) v (win_ts g)
         (last_edge g) (last_r g) (reset_requested g) (last_reset_handled g).
Definition set_win_ts v g :=
  mkGame (lcd g) (buzzer g) (leds g) (round_open g) (winner_idx g) v
         (last_edge g) (last_r g) (reset_requested g) (last_reset_handled g).
Definition set_last_edge v g :=
  mkGame (lcd g) (buzzer g) (leds g) (round_open g) (winner_idx g) (win_ts g)
         v (last_r g) (reset_requested g) (last_reset_handled g).
Definition set_last_r v g :=
  mkGame (lcd g) (buzzer g) (leds g) (round_open g) (winner_idx g) (win_ts g)
         (last_edge g) v (reset_requested g) (last_reset_handled g).
Definition set_reset_requested v g :=
  mkGame (lcd g) (buzzer g) (leds g) (round_open g) (winner_idx g) (win_ts g)
         (last_edge g) (last_r g) v (last_reset_handled g).
Definition set_last_reset_handled v g :=
  mkGame (lcd g) (buzzer g) (leds g) (round_open g) (winner_idx g) (win_ts g)
         (last_edge g) (last_r g) (reset_requested g) v.

(** [str(n)] for a natural number. *)
Definition str (n : nat) : string := NilZero.string_of_uint (Nat.to_uint n).

Module Game.

(** --- LED helpers --- *)

Definition ON : Z := if LED_ACTIVE_HIGH then 1 else 0.
Definition OFF : Z := if LED_ACTIVE_HIGH then 0 else 1.

(** [self.leds[i].value(v)] *)
Definition pin_value (i : nat) (v : Z) : M World unit := fun w =>
  match leds (self w) !! i with
  | Some p =>
      mkOut (Ok tt)
            (mkWorld (set_leds (<[i := mkPin (gpio p) v]> (leds (self w))) (self w)) (board w))
            [PinWrite (gpio p) v]
  | None => mkOut (Raise IndexError) w []
  end.

Definition _led_on (i : nat) : M World unit := pin_value i ON.
Definition _led_off (i : nat) : M World unit := pin_value i OFF.

Definition _leds_all_off : M World unit :=
  n <- get (fun g => length (leds g)) ;;
  for_each (seq 0 n) _led_off.

(** --- Core actions --- *)

Definition _play_start_chime : M World unit :=
  try_except
    (bz <- get buzzer ;; lift (Buzzer.play bz START_CHIME))
    (fun e => print ("Start chime error: " ++ exn_name e)).

Definition _declare_winner (idx : nat) : M World unit :=
  update (set_round_open false) ;;
  update (set_winner_idx (Some idx)) ;;
  now <- lift ticks_ms ;;
  update (set_win_ts now) ;;
  n <- get (fun g => length (leds g)) ;;
  for_each (seq 0 n) (fun i => if (i =? idx)%nat then _led_on i else _led_off i) ;;
  let name := if (idx <? length TEAM_NAMES)%nat then nth idx TEAM_NAMES ""%string
              else ("Team " ++ str (idx + 1))%string in
  d <- get lcd ;;
  lift (lcd_winner d name) ;;
  print ("WIN: " ++ name) ;;
  try_except
    (let melody := if (idx <? length MELODIES)%nat then nth idx MELODIES []
                   else [(C6,150,0)] in
     bz <- get buzzer ;;
     lift (Buzzer.play bz melody))
    (fun e => print ("Buzzer error: " ++ exn_name e)).

Definition reset_round : M World unit :=
  update (set_round_open true) ;;
  update (set_winner_idx None) ;;
  _leds_all_off ;;
  d <- get lcd ;;
  lift (lcd_ready d) ;;
  print "RESET → READY" ;;
  _play_start_chime.

(** --- IRQ handlers --- *)

Definition _irq_btn (idx : nat) : M World unit :=
  now <- lift ticks_ms ;;
  le <- get (fun g => last_edge g !! idx) ;;
  match le with
  | None => raise IndexError
  | Some t =>
      if ticks_diff now t <? DEBOUNCE_MS then ret tt
      else
        update (fun g => set_last_edge (<[idx := now]> (last_edge g)) g) ;;
        ro <- get round_open ;;
        if ro then _declare_winner idx else ret tt
  end.

Definition _irq_r : M World unit :=
  now <- lift ticks_ms ;;
  t <- get last_r ;;
  if ticks_diff now t <? DEBOUNCE_MS then ret tt
  else
    update (set_last_r now) ;;
    update (set_reset_requested true).

(** --- The polling loop --- *)

(** [while self.btnR.value() == 0: time.sleep_ms(5)], for a reset line
    that reads low [held] more times before it reads high. *)
Fixpoint wait_release (held : nat) : M Hw unit :=
  match held with
  | O => ret tt
  | S k => sleep_ms 5 ;; wait_release k
  end.

(** One pass through the body of [while True] in [loop]. *)
Definition loop_iter (held : nat) : M World unit :=
  rr <- get reset_requested ;;
  (if rr then
     now <- lift ticks_ms ;;
     t <- get last_reset_handled ;;
     if RESET_COOLDOWN_MS <=? ticks_diff now t then
       lift (wait_release held) ;;
       update (set_last_reset_handled now) ;;
       update (set_reset_requested false) ;;
       reset_round
     else ret tt
   else ret tt) ;;
  ro <- get round_open ;;
  w <- get winner_idx ;;
  (if negb ro && bool_decide (w <> None) then
     now <- lift ticks_ms ;;
     t <- get win_ts ;;
     if TIMEOUT_S * 1000 <=? ticks_diff now t then reset_round else ret tt
   else ret tt) ;;
  lift (sleep_ms 10).

(** [BuzzerGame()]: the constructor builds the display and the buzzer,
    switches the LEDs off, sets the state fields, shows READY and plays
    the start chime.  The state fields are written before the first
    method call here; no method called by the constructor reads them. *)
Definition __init__ (h : Hw) : Out Hw World :=
  let o := (d <- I2cLcd.__init__ LCD_ADDR LCD_COLS LCD_ROWS ;;
            bz <- Buzzer.__init__ VOLUME_DUTY ;;
            ret (d, bz)) h in
  match res o with
  | Raise e => mkOut (Raise e) (st o) (evs o)
  | Ok (d, bz) =>
      let g := mkGame d bz (map (fun p => mkPin p 0) LED_PINS) true None 0
                      (replicate (length BTN_PINS) 0) 0 false 0 in
      let o' := (_leds_all_off ;; lift (lcd_ready d) ;; _play_start_chime)
                  (mkWorld g (st o)) in
      mkOut (match res o' with Ok _ => Ok (st o') | Raise e => Raise e end)
            (board (st o')) (evs o ++ evs o')
  end.

End Game.

(** ** Vocabulary of the properties *)

(** [n] blanks. *)
Fixpoint spaces (n : nat) : string :=
  match n with
  | O => EmptyString
  | S k => String " "%char (spaces k)
  end.

(** The bus protocol in the words of the specification.  A nibble is put
    on the upper four data lines and latched by one strobe: one write
    with the enable bit (4) high, one with it low, the backlight bit (8)
    kept on throughout; [rs] is 0 for a command and 1 for data. *)
Definition strobe (addr nibble rs : Z) : list Event :=
  [ I2cWrite addr (16 * nibble + rs + 4 + 8); SleepUs 1;
    I2cWrite addr (16 * nibble + rs + 8); SleepUs 50 ].

(** A byte travels as its high nibble, then its low nibble. *)
Definition two_nibbles (addr byte rs : Z) : list Event :=
  strobe addr (byte / 16) rs ++ strobe addr (byte mod 16) rs.

(** Power-on settle, three wake pulses with their delays, the switch to
    4-bit mode, then function set, display off, clear with its long
    delay, entry mode and display on. *)
Definition init_sequence (addr : Z) : list Event :=
  [I2cWrite addr 8; SleepMs 50] ++
  strobe addr 3 0 ++ [SleepMs 5] ++
  strobe addr 3 0 ++ [SleepUs 150] ++
  strobe addr 3 0 ++
  strobe addr 2 0 ++
  two_nibbles addr 0x28 0 ++
  two_nibbles addr 0x08 0 ++
  two_nibbles addr 0x01 0 ++ [SleepMs 2; SleepMs 2] ++
  two_nibbles addr 0x06 0 ++
  two_nibbles addr 0x0C 0.

(** A run on a board without faults: [m] returns [a], makes exactly the
    device calls [l], and leaves the board without faults. *)
Definition emits {A} (m : M Hw A) (a : A) (l : list Event) : Prop :=
  forall h, faults h = [] ->
    res (m h) = Ok a /\ evs (m h) = l /\ faults (st (m h)) = [].

(** The device calls of one (frequency, duration, gap) entry played at
    duty [vol]: a tone when the frequency is positive, a rest of the same
    duration otherwise, then silence for a gap that is not zero. *)
Definition entry_calls (vol : Z) (e : Z * Z * Z) : list Event :=
  let '(f, d, g) := e in
  (if 0 <? f then [PwmFreq f; PwmDuty vol; SleepMs d; PwmDuty 0]
   else [PwmDuty 0; SleepMs d]) ++
  (if g =? 0 then [] else [PwmDuty 0; SleepMs g]).

(** The ways a piece of playback that should make the calls [full] can
    end when it starts silent: its calls are always an initial part of
    [full]; if it returns, it made them all and the output is silent; if
    it raises, the output is silent unless the call that raised was the
    delay of a sounding tone or the duty write that ends the tone. *)
Definition outcome (vol : Z) (full : list Event) (o : Out Hw unit) : Prop :=
  (exists rest, full = evs o ++ rest) /\
  match res o with
  | Ok _ => evs o = full /\ pwm_duty (st o) = 0
  | Raise _ =>
      pwm_duty (st o) = 0 \/
      (pwm_duty (st o) = vol /\
       exists pre f d,
         evs o = pre ++ [PwmFreq f; PwmDuty vol; SleepMs d] \/
         evs o = pre ++ [PwmFreq f; PwmDuty vol; SleepMs d; PwmDuty 0])
  end.

(** The duty the output carries after the duty writes among the calls [l]
    took effect, starting from duty [d]: the last value written. *)
Fixpoint duty_after (d : Z) (l : list Event) : Z :=
  match l with
  | [] => d
  | PwmDuty d' :: l' => duty_after d' l'
  | _ :: l' => duty_after d l'
  end.

(** The calls of a run that took effect: all of them when it returned,
    all but the last, which is the one that raised, when it did not. *)
Definition effective {A} (o : Out Hw A) : list Event :=
  match res o with
  | Ok _ => evs o
  | Raise _ => removelast (evs o)
  end.

(** [m] changes the duty only through the duty writes it logs, and when
    it raises the call that raised is in its log. *)
Definition tracks {A} (m : M Hw A) : Prop :=
  forall h,
    pwm_duty (st (m h)) = duty_after (pwm_duty h) (effective (m h)) /\
    (forall e, res (m h) = Raise e -> evs (m h) <> []).

(** The log of a run that stopped in a sounding tone: its last call is the
    tone's delay, or the duty write that ends the tone. *)
Definition raised_in_tone (vol : Z) (l : list Event) : Prop :=
  exists pre f d,
    l = pre ++ [PwmFreq f; PwmDuty vol; SleepMs d] \/
    l = pre ++ [PwmFreq f; PwmDuty vol; SleepMs d; PwmDuty 0].

(** [m] maintains the property [P] of the game object, whatever the
    board does and whether or not [m] raises. *)
Definition stable {A} (P : BuzzerGame -> Prop) (m : M World A) : Prop :=
  forall w, P (self w) -> P (self (st (m w))).

(** An LED is logically on when its pin carries the active level. *)
Definition lit (p : Pin) : Prop := level p = Game.ON.
Definition dark (p : Pin) : Prop := level p = Game.OFF.

(** The LED pins after every one of them was written, pin [i] with
    [lev i], and the log of those writes. *)
Definition relevel (lev : nat -> Z) (l : list Pin) : list Pin :=
  imap (fun i p => mkPin (gpio p) (lev i)) l.
Definition pin_writes (lev : nat -> Z) (l : list Pin) : list Event :=
  imap (fun i p => PinWrite (gpio p) (lev i)) l.

(** Levels that light LED [i] alone. *)
Definition only (i : nat) : nat -> Z :=
  fun j => if (j =? i)%nat then Game.ON else Game.OFF.

(** The game object once [i] was declared the winner at tick [now], and
    once the round was reset. *)
Definition closed_on (i : nat) (now : Z) (g : BuzzerGame) : BuzzerGame :=
  set_leds (relevel (only i) (leds g))
    (set_win_ts now (set_winner_idx (Some i) (set_round_open false g))).

Definition reopened (g : BuzzerGame) : BuzzerGame :=
  set_leds (relevel (fun _ => Game.OFF) (leds g))
    (set_winner_idx None (set_round_open true g)).

(** The game object with the timestamp of an accepted edge on channel
    [i] recorded. *)
Definition stamped (i : nat) (w : World) : World :=
  mkWorld (set_last_edge (<[i := ticks_now (board w)]> (last_edge (self w))) (self w))
          (board w).

(** What the constructor fixes for good: the display and buzzer objects,
    one LED per entry of [LED_PINS], one timestamp per button. *)
Definition wf (g : BuzzerGame) : Prop :=
  lcd g = I2cLcd.mk LCD_ADDR LCD_COLS LCD_ROWS I2cLcd.MASK_BL /\
  buzzer g = Buzzer.mk VOLUME_DUTY /\
  map gpio (leds g) = LED_PINS /\
  length (last_edge g) = length BTN_PINS.

(** Every value [m] can return satisfies [P]. *)
Definition returns {S A} (m : M S A) (P : A -> Prop) : Prop :=
  forall s a, res (m s) = Ok a -> P a.

(** Time passing with the program idle. *)
Definition idle (us : Z) (w : World) : World :=
  mkWorld (self w) (advance us (board w)).

(** What can happen to the running program: a falling edge on the button
    of a contestant or on the reset button runs its callback to the end
    (an exception in a callback is reported and dropped), the polling
    loop makes one pass, or time passes.  A pass that raises ends the
    loop, but the callbacks stay armed, so the state it leaves counts. *)
Inductive step : World -> World -> Prop :=
| step_press (i : nat) (w : World) :
    (i < length BTN_PINS)%nat -> step w (st (Game._irq_btn i w))
| step_reset_edge (w : World) : step w (st (Game._irq_r w))
| step_poll (held : nat) (w : World) : step w (st (Game.loop_iter held w))
| step_idle (us : Z) (w : World) : step w (idle us w).

(** The states of the program: those the constructor returns, and those
    that follow them. *)
Inductive reachable : World -> Prop :=
| reach_boot (h : Hw) (w : World) : res (Game.__init__ h) = Ok w -> reachable w
| reach_step (w w' : World) : reachable w -> step w w' -> reachable w'.


(** Output channel [i] is logically on and every other one is off. *)
Definition exclusive (i : nat) (l : list Pin) : Prop :=
  (exists p, l !! i = Some p /\ lit p) /\
  (forall j p, l !! j = Some p -> (lit p <-> j = i) /\ (dark p <-> j <> i)).

(** The program as the constructor leaves it on a board that was powered
    up with its clock at zero and never fails: 385.434 ms have gone by,
    the PWM is set to the last pitch of the start chime and silent. *)
Definition power_on : World :=
  mkWorld (mkGame (I2cLcd.mk LCD_ADDR LCD_COLS LCD_ROWS I2cLcd.MASK_BL)
                  (Buzzer.mk VOLUME_DUTY)
                  (map (fun p => mkPin p Game.OFF) LED_PINS)
                  true None 0 (replicate (length BTN_PINS) 0) 0 false 0)
          (mkHw 385434 G5 0 []).

(** The callback of button [i], fired in state [w], accepts the edge when
    it goes past the debounce check; what it then does first is
    overwrite the timestamp of its channel, and nothing else tells the
    two ways out of the callback apart when the round is closed. *)
Definition accepted (i : nat) (w : World) : Prop :=
  last_edge (self (st (Game._irq_btn i w))) !! i <> last_edge (self w) !! i.

#[global] Instance accepted_dec (i : nat) (w : World) : Decision (accepted i w).
Proof. unfold accepted. apply _. Defined.

(** [calm i w w']: the program went from [w] to [w'] without accepting an
    edge on channel [i]; edges the callback of [i] discarded, edges on the
    other channels, reset edges, loop passes and time are all allowed. *)
Inductive calm (i : nat) : World -> World -> Prop :=
| calm_here (w : World) : calm i w w
| calm_bounce (w w' : World) :
    calm i w w' -> ~ accepted i w' -> calm i w (st (Game._irq_btn i w'))
| calm_other (j : nat) (w w' : World) :
    calm i w w' -> j <> i -> calm i w (st (Game._irq_btn j w'))
| calm_reset_edge (w w' : World) :
    calm i w w' -> calm i w (st (Game._irq_r w'))
| calm_poll (held : nat) (w w' : World) :
    calm i w w' -> calm i w (st (Game.loop_iter held w'))
| calm_idle (us : Z) (w w' : World) :
    calm i w w' -> calm i w (idle us w').


(** A closed round: contestant 2 pressed first after power-on, the
    callback ran to its end, and 100 ms went by. *)
Definition after_win : World := idle 100000 (st (Game._irq_btn 2 power_on)).

(** [before_poll w w']: the program went from [w] to [w'] while the
    polling loop did not get to run: only callbacks and time. *)
Inductive before_poll : World -> World -> Prop :=
| bp_here (w : World) : before_poll w w
| bp_press (i : nat) (w w' : World) :
    before_poll w w' -> before_poll w (st (Game._irq_btn i w'))
| bp_reset_edge (w w' : World) :
    before_poll w w' -> before_poll w (st (Game._irq_r w'))
| bp_idle (us : Z) (w w' : World) :
    before_poll w w' -> before_poll w (idle us w').

(** The calls that put a string on the display: each character as a data
    byte, high nibble first. *)
Definition text (addr : Z) (s : string) : list Event :=
  concat (map (fun c => two_nibbles addr (ord c) 1) (list_ascii_of_string s)).

(** A full screen: clear with its delay, then each row after the command
    that moves the cursor to its first column (0x80 and 0xC0). *)
Definition screen (addr : Z) (row0 row1 : string) : list Event :=
  two_nibbles addr 0x01 0 ++ [SleepMs 2] ++
  two_nibbles addr 0x80 0 ++ text addr row0 ++
  two_nibbles addr 0xC0 0 ++ text addr row1.

Definition ready_screen : list Event :=
  screen LCD_ADDR (center "READY" LCD_COLS) (center "Press a button" LCD_COLS).

Definition winner_screen (name : string) : list Event :=
  screen LCD_ADDR (center (name ++ " WINS!") LCD_COLS)
                  (center "Wait/Reset to play" LCD_COLS).

(** Everything a reset does to the outside, in order: all LEDs off, the
    READY screen, the console line, the start chime. *)
Definition reset_calls (l : list Pin) : list Event :=
  pin_writes (fun _ => Game.OFF) l ++ ready_screen ++
  [Print "RESET → READY"] ++
  concat (map (entry_calls VOLUME_DUTY) START_CHIME).

(** Everything declaring contestant [i] the winner does to the outside,
    in order: LED [i] on and the others off, the winner's screen, the
    console line, the winner's melody. *)
Definition win_calls (i : nat) (l : list Pin) : list Event :=
  pin_writes (only i) l ++ winner_screen (nth i TEAM_NAMES ""%string) ++
  [Print ("WIN: " ++ nth i TEAM_NAMES "")%string] ++
  concat (map (entry_calls VOLUME_DUTY) (nth i MELODIES [])).

(** The part of a pass of the loop that follows the reset handling: the
    check for the winner's timeout, then the pause of 10 ms. *)
Definition timeout_check : M World unit :=
  ro <- get round_open ;;
  wi <- get winner_idx ;;
  (if negb ro && bool_decide (wi <> None) then
     now <- lift ticks_ms ;;
     t <- get win_ts ;;
     if TIMEOUT_S * 1000 <=? ticks_diff now t then Game.reset_round else ret tt
   else ret tt) ;;
  lift (sleep_ms 10).

(** The stores of the polling loop to the game object, one at a time:
    the two fields it writes when it handles a reset, the two fields
    [reset_round] writes, and the level of one LED, written off by
    [_leds_all_off]. *)
Inductive loop_store : BuzzerGame -> BuzzerGame -> Prop :=
| store_last_reset_handled (now : Z) (g : BuzzerGame) :
    loop_store g (set_last_reset_handled now g)
| store_reset_requested (g : BuzzerGame) :
    loop_store g (set_reset_requested false g)
| store_round_open (g : BuzzerGame) :
    loop_store g (set_round_open true g)
| store_winner_idx (g : BuzzerGame) :
    loop_store g (set_winner_idx None g)
| store_led_off (k : nat) (p : Pin) (g : BuzzerGame) :
    leds g !! k = Some p ->
    loop_store g (set_leds (<[k := mkPin (gpio p) Game.OFF]> (leds g)) g).

(** The game object with callbacks served inside the passes of the loop.
    The callbacks are soft interrupts: one runs to its end before the
    next starts, but the loop is interrupted wherever it stands, on
    whatever the board is at that moment.  So between any two stores of
    the loop a callback may run.  The order and number of the loop's
    stores is left open here, which only adds states. *)
Inductive interleaved : BuzzerGame -> Prop :=
| il_boot (h : Hw) (w : World) :
    res (Game.__init__ h) = Ok w -> interleaved (self w)
| il_press (i : nat) (b : Hw) (g : BuzzerGame) :
    (i < length BTN_PINS)%nat -> interleaved g ->
    interleaved (self (st (Game._irq_btn i (mkWorld g b))))
| il_reset_edge (b : Hw) (g : BuzzerGame) :
    interleaved g -> interleaved (self (st (Game._irq_r (mkWorld g b))))
| il_store (g g' : BuzzerGame) :
    interleaved g -> loop_store g g' -> interleaved g'.

(** No two of the LEDs are logically on. *)
Definition at_most_one_lit (l : list Pin) : Prop :=
  forall j k p q, l !! j = Some p -> l !! k = Some q -> lit p -> lit q -> j = k.

(** [_led_off] on LED [k], as a store. *)
Definition led_off (k : nat) (g : BuzzerGame) : BuzzerGame :=
  match leds g !! k with
  | Some p => set_leds (<[k := mkPin (gpio p) Game.OFF]> (leds g)) g
  | None => g
  end.

(** A press served inside [reset_round].  Contestant 3 has won and the
    timeout is over; the loop has reopened the round and written the
    first two LEDs off when the press of contestant 6 is served: its
    callback closes the round and lights LED 6.  The loop then goes on
    and writes the other four LEDs off. *)
Definition raced_win : BuzzerGame :=
  let g1 := self (st (Game._irq_btn 2 power_on)) in
  let g2 := led_off 1 (led_off 0 (set_winner_idx None (set_round_open true g1))) in
  let g3 := self (st (Game._irq_btn 5 (mkWorld g2 (mkHw 9000000 0 0 [])))) in
  led_off 5 (led_off 4 (led_off 3 (led_off 2 g3))).

(** A round that has been closed for nine seconds. *)
Definition stale_win : World := idle 9000000 (st (Game._irq_btn 2 power_on)).

(** The powered-on program on a board whose 282nd device call fails with
    [OSError]: the first call of a melody, for a winner's screen of 281
    calls. *)
Definition buzzer_fails : World :=
  mkWorld (self power_on)
          (mkHw 385434 G5 0 (replicate 281 None ++ [Some OSError])).

(** A run on a board without faults that returns after sleeping for [us]
    microseconds in all, and leaves the board without faults. *)
Definition takes (m : M Hw unit) (us : Z) : Prop :=
  forall h, faults h = [] ->
    res (m h) = Ok tt /\ faults (st (m h)) = [] /\
    clock_us (st (m h)) = clock_us h + us.

(** The durations and gaps of a tone sequence, added up, in ms. *)
Definition play_ms (seq : Melody) : Z :=
  fold_right (fun e acc => e.1.2 + e.2 + acc) 0 seq.

(** ** The two-player game of [buzzer-2p-leds.py] *)

(** The script shares the display driver, [center], [lcd_ready],
    [lcd_winner], the [Buzzer] class and the start chime with [main.py],
    word for word; its game object has one button, one LED and one
    timestamp per team instead of lists. *)
Module TwoPlayer.

Definition TEAM_A_NAME : string := "Team 1".
Definition TEAM_B_NAME : string := "Team 2".
Definition DEBOUNCE_MS : Z := 100.
Definition TIMEOUT_S : Z := 8.
Definition RESET_COOLDOWN_MS : Z := 400.
Definition LED_A_PIN : Z := 12.
Definition LED_B_PIN : Z := 13.
Definition LED_ACTIVE_HIGH : bool := true.

Definition MELODY_A : Melody := [ (E5,120,20); (G5,120,20); (C6,180,0) ].
Definition MELODY_B : Melody := [ (C6,120,20); (G5,120,20); (E5,180,0) ].

Record BuzzerGame : Type := mkGame {
  lcd                : I2cLcd.t;
  buzzer             : Buzzer.t;
  ledA               : Pin;
  ledB               : Pin;
  round_open         : bool;
  winner             : option string;
  win_ts             : Z;
  last_a             : Z;
  last_b             : Z;
  last_r             : Z;
  reset_requested    : bool;
  last_reset_handled : Z
}.

Record World : Type := mkWorld { self : BuzzerGame; board : Hw }.

Definition lift {A} (m : M Hw A) : M World A := fun w =>
  let o := m (board w) in mkOut (res o) (mkWorld (self w) (st o)) (evs o).

Definition get {A} (f : BuzzerGame -> A) : M World A := gets (fun w => f (self w)).
Definition update (f : BuzzerGame -> BuzzerGame) : M World unit :=
  modify (fun w => mkWorld (f (self w)) (board w)).

Definition set_ledA v g :=
  mkGame (lcd g) (buzzer g) v (ledB g) (round_open g) (winner g) (win_ts g)
         (last_a g) (last_b g) (last_r g) (reset_requested g) (last_reset_handled g).
Definition set_ledB v g :=
  mkGame (lcd g) (buzzer g) (ledA g) v (round_open g) (winner g) (win_ts g)
         (last_a g) (last_b g) (last_r g) (reset_requested g) (last_reset_handled g).
Definition set_round_open v g :=
  mkGame (lcd g) (buzzer g) (ledA g) (ledB g) v (winner g) (win_ts g)
         (last_a g) (last_b g) (last_r g) (reset_requested g) (last_reset_handled g).
Definition set_winner v g :=
  mkGame (lcd g) (buzzer g) (ledA g) (ledB g) (round_open g) v (win_ts g)
         (last_a g) (last_b g) (last_r g) (reset_requested g) (last_reset_handled g).
Definition set_win_ts v g :=
  mkGame (lcd g) (buzzer g) (ledA g) (ledB g) (round_open g) (winner g) v
         (last_a g) (last_b g) (last_r g) (reset_requested g) (last_reset_handled g).
Definition set_last_a v g :=
  mkGame (lcd g) (buzzer g) (ledA g) (ledB g) (round_open g) (winner g) (win_ts g)
         v (last_b g) (last_r g) (reset_requested g) (last_reset_handled g).
Definition set_last_b v g :=
  mkGame (lcd g) (buzzer g) (ledA g) (ledB g) (round_open g) (winner g) (win_ts g)
         (last_a g) v (last_r g) (reset_requested g) (last_reset_handled g).
Definition set_last_r v g :=
  mkGame (lcd g) (buzzer g) (ledA g) (ledB g) (round_open g) (winner g) (win_ts g)
         (last_a g) (last_b g) v (reset_requested g) (last_reset_handled g).
Definition set_reset_requested v g :=
  mkGame (lcd g) (buzzer g) (ledA g) (ledB g) (round_open g) (winner g) (win_ts g)
         (last_a g) (last_b g) (last_r g) v (last_reset_handled g).
Definition set_last_reset_handled v g :=
  mkGame (lcd g) (buzzer g) (ledA g) (ledB g) (round_open g) (winner g) (win_ts g)
         (last_a g) (last_b g) (last_r g) (reset_requested g) v.

(** --- LED helpers --- *)

Definition ON : Z := if LED_ACTIVE_HIGH then 1 else 0.
Definition OFF : Z := if LED_ACTIVE_HIGH then 0 else 1.

(** The two pin objects the helpers are called with. *)
Inductive Led : Type := LedA | LedB.

(** [pin_obj.value(v)] *)
Definition pin_value (pin_obj : Led) (v : Z) : M World unit := fun w =>
  match pin_obj with
  | LedA =>
      mkOut (Ok tt)
            (mkWorld (set_ledA (mkPin (gpio (ledA (self w))) v) (self w)) (board w))
            [PinWrite (gpio (ledA (self w))) v]
  | LedB =>
      mkOut (Ok tt)
            (mkWorld (set_ledB (mkPin (gpio (ledB (self w))) v) (self w)) (board w))
            [PinWrite (gpio (ledB (self w))) v]
  end.

Definition _led_on (pin_obj : Led) : M World unit := pin_value pin_obj ON.
Definition _led_off (pin_obj : Led) : M World unit := pin_value pin_obj OFF.

Definition _leds_all_off : M World unit :=
  _led_off LedA ;; _led_off LedB.

(** --- Core game actions --- *)

Definition _declare_winner (name : string) (melody : Melody) (which : string)
  : M World unit :=
  update (set_round_open false) ;;
  update (set_winner (Some name)) ;;
  now <- lift ticks_ms ;;
  update (set_win_ts now) ;;
  (if String.eqb which "A" then _led_on LedA ;; _led_off LedB
   else _led_on LedB ;; _led_off LedA) ;;
  d <- get lcd ;;
  lift (lcd_winner d name) ;;
  print ("WIN: " ++ name) ;;
  try_except
    (bz <- get buzzer ;; lift (Buzzer.play bz melody))
    (fun e => print ("Buzzer error: " ++ exn_name e)).

Definition _play_start_chime : M World unit :=
  try_except
    (bz <- get buzzer ;; lift (Buzzer.play bz START_CHIME))
    (fun e => print ("Start chime error: " ++ exn_name e)).

Definition reset_round : M World unit :=
  update (set_round_open true) ;;
  update (set_winner None) ;;
  _leds_all_off ;;
  d <- get lcd ;;
  lift (lcd_ready d) ;;
  print "RESET → READY" ;;
  _play_start_chime.

(** --- IRQ handlers --- *)

Definition _irq_a : M World unit :=
  now <- lift ticks_ms ;;
  t <- get last_a ;;
  if ticks_diff now t <? DEBOUNCE_MS then ret tt
  else
    update (set_last_a now) ;;
    ro <- get round_open ;;
    if ro then _declare_winner TEAM_A_NAME MELODY_A "A" else ret tt.

Definition _irq_b : M World unit :=
  now <- lift ticks_ms ;;
  t <- get last_b ;;
  if ticks_diff now t <? DEBOUNCE_MS then ret tt
  else
    update (set_last_b now) ;;
    ro <- get round_open ;;
    if ro then _declare_winner TEAM_B_NAME MELODY_B "B" else ret tt.

Definition _irq_r : M World unit :=
  now <- lift ticks_ms ;;
  t <- get last_r ;;
  if ticks_diff now t <? DEBOUNCE_MS then ret tt
  else
    update (set_last_r now) ;;
    update (set_reset_requested true).

(** --- The polling loop --- *)

(** One pass through the body of [while True] in [loop], for a reset line
    that reads low [held] more times before it reads high. *)
Definition loop_iter (held : nat) : M World unit :=
  rr <- get reset_requested ;;
  (if rr then
     now <- lift ticks_ms ;;
     t <- get last_reset_handled ;;
     if RESET_COOLDOWN_MS <=? ticks_diff now t then
       lift (Game.wait_release held) ;;
       update (set_last_reset_handled now) ;;
       update (set_reset_requested false) ;;
       reset_round
     else ret tt
   else ret tt) ;;
  ro <- get round_open ;;
  w <- get winner ;;
  (if negb ro && bool_decide (w <> None) then
     now <- lift ticks_ms ;;
     t <- get win_ts ;;
     if TIMEOUT_S * 1000 <=? ticks_diff now t then reset_round else ret tt
   else ret tt) ;;
  lift (sleep_ms 10).

(** [BuzzerGame()]: display, buzzer, both LEDs off, the state fields, the
    READY screen, the start chime. *)
Definition __init__ (h : Hw) : Out Hw World :=
  let o := (d <- I2cLcd.__init__ LCD_ADDR LCD_COLS LCD_ROWS ;;
            bz <- Buzzer.__init__ VOLUME_DUTY ;;
            ret (d, bz)) h in
  match res o with
  | Raise e => mkOut (Raise e) (st o) (evs o)
  | Ok (d, bz) =>
      let g := mkGame d bz (mkPin LED_A_PIN 0) (mkPin LED_B_PIN 0) true None 0
                      0 0 0 false 0 in
      let o' := (_leds_all_off ;; lift (lcd_ready d) ;; _play_start_chime)
                  (mkWorld g (st o)) in
      mkOut (match res o' with Ok _ => Ok (st o') | Raise e => Raise e end)
            (board (st o')) (evs o ++ evs o')
  end.

End TwoPlayer.

(** *** Vocabulary for the two-player game *)

(** [m] maintains the property [P] of the two-player game object,
    whatever the board does and whether or not [m] raises. *)
Definition stable2 {A} (P : TwoPlayer.BuzzerGame -> Prop) (m : M TwoPlayer.World A)
  : Prop :=
  forall w, P (TwoPlayer.self w) -> P (TwoPlayer.self (st (m w))).

(** The two-player game object once a team was declared the winner at
    tick [now] (its LED on, then the other LED off), and once the round
    was reset. *)
Definition closed2 (name which : string) (now : Z) (g : TwoPlayer.BuzzerGame)
  : TwoPlayer.BuzzerGame :=
  let g1 := TwoPlayer.set_win_ts now
              (TwoPlayer.set_winner (Some name) (TwoPlayer.set_round_open false g)) in
  if String.eqb which "A"
  then TwoPlayer.set_ledB (mkPin (gpio (TwoPlayer.ledB g)) TwoPlayer.OFF)
         (TwoPlayer.set_ledA (mkPin (gpio (TwoPlayer.ledA g)) TwoPlayer.ON) g1)
  else TwoPlayer.set_ledA (mkPin (gpio (TwoPlayer.ledA g)) TwoPlayer.OFF)
         (TwoPlayer.set_ledB (mkPin (gpio (TwoPlayer.ledB g)) TwoPlayer.ON) g1).

Definition reopened2 (g : TwoPlayer.BuzzerGame) : TwoPlayer.BuzzerGame :=
  TwoPlayer.set_ledB (mkPin (gpio (TwoPlayer.ledB g)) TwoPlayer.OFF)
    (TwoPlayer.set_ledA (mkPin (gpio (TwoPlayer.ledA g)) TwoPlayer.OFF)
       (TwoPlayer.set_winner None (TwoPlayer.set_round_open true g))).

(** Time passing with the two-player program idle. *)
Definition idle2 (us : Z) (w : TwoPlayer.World) : TwoPlayer.World :=
  TwoPlayer.mkWorld (TwoPlayer.self w) (advance us (TwoPlayer.board w)).

(** The two-player program as its constructor leaves it on a board
    powered up with its clock at zero that never fails. *)
Definition power_on2 : TwoPlayer.World :=
  TwoPlayer.mkWorld
    (TwoPlayer.mkGame (I2cLcd.mk LCD_ADDR LCD_COLS LCD_ROWS I2cLcd.MASK_BL)
       (Buzzer.mk VOLUME_DUTY)
       (mkPin TwoPlayer.LED_A_PIN TwoPlayer.OFF) (mkPin TwoPlayer.LED_B_PIN TwoPlayer.OFF)
       true None 0 0 0 0 false 0)
    (mkHw 385434 G5 0 []).

(** The stores of the two-player polling loop to the game object, one at
    a time, and the game object with callbacks served between any two of
    them; a callback runs to its end before the next starts. *)
Inductive loop_store2 : TwoPlayer.BuzzerGame -> TwoPlayer.BuzzerGame -> Prop :=
| store2_last_reset_handled (now : Z) (g : TwoPlayer.BuzzerGame) :
    loop_store2 g (TwoPlayer.set_last_reset_handled now g)
| store2_reset_requested (g : TwoPlayer.BuzzerGame) :
    loop_store2 g (TwoPlayer.set_reset_requested false g)
| store2_round_open (g : TwoPlayer.BuzzerGame) :
    loop_store2 g (TwoPlayer.set_round_open true g)
| store2_winner (g : TwoPlayer.BuzzerGame) :
    loop_store2 g (TwoPlayer.set_winner None g)
| store2_ledA_off (g : TwoPlayer.BuzzerGame) :
    loop_store2 g (TwoPlayer.set_ledA (mkPin (gpio (TwoPlayer.ledA g)) TwoPlayer.OFF) g)
| store2_ledB_off (g : TwoPlayer.BuzzerGame) :
    loop_store2 g (TwoPlayer.set_ledB (mkPin (gpio (TwoPlayer.ledB g)) TwoPlayer.OFF) g).

Inductive interleaved2 : TwoPlayer.BuzzerGame -> Prop :=
| il2_boot (h : Hw) (w : TwoPlayer.World) :
    res (TwoPlayer.__init__ h) = Ok w -> interleaved2 (TwoPlayer.self w)
| il2_a (b : Hw) (g : TwoPlayer.BuzzerGame) :
    interleaved2 g ->
    interleaved2 (TwoPlayer.self (st (TwoPlayer._irq_a (TwoPlayer.mkWorld g b))))
| il2_b (b : Hw) (g : TwoPlayer.BuzzerGame) :
    interleaved2 g ->
    interleaved2 (TwoPlayer.self (st (TwoPlayer._irq_b (TwoPlayer.mkWorld g b))))
| il2_r (b : Hw) (g : TwoPlayer.BuzzerGame) :
    interleaved2 g ->
    interleaved2 (TwoPlayer.self (st (TwoPlayer._irq_r (TwoPlayer.mkWorld g b))))
| il2_store (g g' : TwoPlayer.BuzzerGame) :
    interleaved2 g -> loop_store2 g g' -> interleaved2 g'.

(** A press served inside [reset_round] of the two-player game.  Team 1
    has won and the timeout is over; the loop has reopened the round
    when a press on A is served, which closes the round and lights LED
    A; the loop then goes on and writes both LEDs off. *)
Definition raced_win2 : TwoPlayer.BuzzerGame :=
  let g1 := TwoPlayer.self (st (TwoPlayer._irq_a power_on2)) in
  let g2 := TwoPlayer.set_winner None (TwoPlayer.set_round_open true g1) in
  let g3 := TwoPlayer.self
              (st (TwoPlayer._irq_a (TwoPlayer.mkWorld g2 (mkHw 9000000 0 0 [])))) in
  let g4 := TwoPlayer.set_ledA (mkPin (gpio (TwoPlayer.ledA g3)) TwoPlayer.OFF) g3 in
  TwoPlayer.set_ledB (mkPin (gpio (TwoPlayer.ledB g4)) TwoPlayer.OFF) g4.

(** The callback of button A, fired in state [w], accepts the edge when
    it goes past the debounce check and changes the game object. *)
Definition accepted_a (w : TwoPlayer.World) : Prop :=
  TwoPlayer.self (st (TwoPlayer._irq_a w)) <> TwoPlayer.self w.

(** [calm_a w w']: the two-player program went from [w] to [w'] without
    accepting an edge on button A. *)
Inductive calm_a : TwoPlayer.World -> TwoPlayer.World -> Prop :=
| calm_a_here (w : TwoPlayer.World) : calm_a w w
| calm_a_bounce (w w' : TwoPlayer.World) :
    calm_a w w' -> ~ accepted_a w' -> calm_a w (st (TwoPlayer._irq_a w'))
| calm_a_b (w w' : TwoPlayer.World) :
    calm_a w w' -> calm_a w (st (TwoPlayer._irq_b w'))
| calm_a_r (w w' : TwoPlayer.World) :
    calm_a w w' -> calm_a w (st (TwoPlayer._irq_r w'))
| calm_a_poll (held : nat) (w w' : TwoPlayer.World) :
    calm_a w w' -> calm_a w (st (TwoPlayer.loop_iter held w'))
| calm_a_idle (us : Z) (w w' : TwoPlayer.World) :
    calm_a w w' -> calm_a w (idle2 us w').

(** A closed round of the two-player game, 200 ms after the callback of
    the winning press on A returned; and the state three edges later:
    an edge on A accepted there, then edges on A, on B and a pause of
    30 ms before each. *)
Definition after_win2 : TwoPlayer.World :=
  idle2 200000 (st (TwoPlayer._irq_a power_on2)).

Definition after_bounces2 : TwoPlayer.World :=
  idle2 30000 (st (TwoPlayer._irq_b (idle2 30000
    (st (TwoPlayer._irq_a (idle2 30000 (st (TwoPlayer._irq_a after_win2)))))))).

(* ================================================================== *)
(** * Properties *)
(* ================================================================== *)

(** ** Strings *)

Lemma length_append (a b : string) :
  String.length (a ++ b) = (String.length a + String.length b)%nat.
Proof. induction a as [|c a IH]; simpl; [reflexivity | now rewrite IH]. Qed.

Lemma length_spaces (n : nat) : String.length (spaces n) = n.
Proof. induction n as [|n IH]; simpl; [reflexivity | now rewrite IH]. Qed.

Lemma str_mul_space (n : Z) : str_mul " " n = spaces (Z.to_nat n).
Proof.
  unfold str_mul. induction (Z.to_nat n) as [|k IH]; simpl; [reflexivity|].
  now rewrite IH.
Qed.

Lemma length_substring0 (n : nat) (s : string) :
  String.length (substring 0 n s) = Nat.min n (String.length s).
Proof.
  revert n; induction s as [|c s IH]; intros [|n]; simpl; try reflexivity.
  now rewrite IH.
Qed.

Lemma substring0_prefix (n : nat) (s : string) :
  exists rest, s = (substring 0 n s ++ rest)%string.
Proof.
  revert n; induction s as [|c s IH]; intros [|n]; simpl.
  - now exists EmptyString.
  - now exists EmptyString.
  - now exists (String c s).
  - destruct (IH n) as [rest Hrest]. exists rest.
    change (String c s = String c (substring 0 n s ++ rest)). congruence.
Qed.

(** C9.  For a display width that is not negative, [center text width] is
    exactly [width] characters long; a text at least as long as the width
    is cut to its first [width] characters, and a shorter text is kept
    whole between [l] blanks on the left and [r] on the right, where
    [l = (width - len text) // 2] and [l + r = width - len text]. *)
Theorem center_exact_width (text : string) (width : Z) :
  0 <= width ->
  len (center text width) = width /\
  (width <= len text ->
     exists rest, text = (center text width ++ rest)%string) /\
  (len text < width ->
     exists l r : nat,
       center text width = (spaces l ++ text ++ spaces r)%string /\
       Z.of_nat l = (width - len text) / 2 /\
       Z.of_nat l + Z.of_nat r = width - len text /\
       (l <= r <= l + 1)%nat).
Proof.
  intros Hw. unfold center, len.
  destruct (Z.leb_spec width (Z.of_nat (String.length text))) as [Hle|Hlt].
  - unfold slice_to. destruct (Z.leb_spec 0 width) as [_|?]; [|lia].
    split; [|split].
    + rewrite length_substring0. lia.
    + intros _. apply substring0_prefix.
    + lia.
  - set (n := Z.of_nat (String.length text)) in *.
    assert (Hn : 0 <= n) by (subst n; lia).
    assert (Hpad : 0 <= (width - n) / 2) by (apply Z.div_pos; lia).
    assert (Hhalf : 2 * ((width - n) / 2) <= width - n)
      by (apply Z.mul_div_le; lia).
    assert (Hhalf' : width - n < 2 * ((width - n) / 2) + 2).
    { pose proof (Z.mod_pos_bound (width - n) 2 ltac:(lia)).
      pose proof (Z.div_mod (width - n) 2 ltac:(lia)). lia. }
    rewrite !str_mul_space.
    split; [|split].
    + rewrite !length_append, !length_spaces. fold n. lia.
    + lia.
    + intros _.
      exists (Z.to_nat ((width - n) / 2)), (Z.to_nat (width - n - (width - n) / 2)).
      split; [reflexivity|]. lia.
Qed.

(** The 18-character second line of the winner screen on the 16-column
    display, and a [READY] banner padded on both sides. *)
Lemma center_exact_width_witness :
  0 <= 16 /\
  center "Wait/Reset to play" 16 = "Wait/Reset to pl"%string /\
  center "READY" 16 = "     READY      "%string /\
  len (center "Wait/Reset to play" 16) = 16.
Proof.
  split; [lia|]. split; [reflexivity|]. split; [reflexivity|].
  exact (proj1 (center_exact_width "Wait/Reset to play" 16 ltac:(lia))).
Defined.

(** ** Runs without faults *)

Lemma emits_by_run {A} (m : M Hw A) (a : A) (l : list Event) :
  (forall c f d, res (m (mkHw c f d [])) = Ok a /\
                 evs (m (mkHw c f d [])) = l /\
                 faults (st (m (mkHw c f d []))) = []) ->
  emits m a l.
Proof. intros H [c f d fs] Hfs; simpl in Hfs; subst fs. apply H. Qed.

Lemma emits_bind {A B} (m : M Hw A) (k : A -> M Hw B) a b l1 l2 :
  emits m a l1 -> emits (k a) b l2 -> emits (bind m k) b (l1 ++ l2).
Proof.
  intros Hm Hk h Hh. destruct (Hm h Hh) as (Hr & He & Hf).
  destruct (Hk _ Hf) as (Hr' & He' & Hf').
  unfold bind. rewrite Hr. simpl. rewrite He, He'. auto.
Qed.

Lemma below_cases (n : nat) (P : Z -> Prop) :
  (forall k, (k < n)%nat -> P (Z.of_nat k)) ->
  forall b, 0 <= b < Z.of_nat n -> P b.
Proof.
  intros H b Hb. rewrite <- (Z2Nat.id b) by lia. apply H. lia.
Qed.

(** ** The display driver *)

Lemma init_emits (a cols rows : Z) :
  emits (I2cLcd.__init__ a cols rows) (I2cLcd.mk a cols rows I2cLcd.MASK_BL)
        (init_sequence a).
Proof. apply emits_by_run. intros c f d. vm_compute. auto. Qed.

Lemma send_byte_emits (lcd : I2cLcd.t) (b rs : Z) :
  I2cLcd.bl lcd = I2cLcd.MASK_BL -> 0 <= b < 256 -> rs = 0 \/ rs = 1 ->
  emits (I2cLcd._send_byte lcd b rs) tt (two_nibbles (I2cLcd.addr lcd) b rs).
Proof.
  intros Hbl Hb Hrs. destruct lcd as [a cols rows bl]. simpl in *. subst bl.
  revert b Hb. apply (below_cases 256). intros k Hk.
  apply emits_by_run. intros c f d.
  destruct Hrs; subst rs;
    do 256 (destruct k as [|k]; [vm_compute; auto|]); lia.
Qed.

Lemma emits_ret {A} (a : A) : emits (ret a) a [].
Proof. intros h Hh. auto. Qed.

Lemma emits_device (ev : Event) (effect : Hw -> Hw) :
  (forall h, faults (effect h) = faults h) ->
  emits (device ev effect) tt [ev].
Proof.
  intros Heff h Hh. unfold device. rewrite Hh. simpl.
  rewrite Heff. auto.
Qed.

Lemma emits_sleep_ms (ms : Z) : emits (sleep_ms ms) tt [SleepMs ms].
Proof. apply emits_device. reflexivity. Qed.

Lemma emits_pwm_freq (hz : Z) : emits (pwm_freq hz) tt [PwmFreq hz].
Proof. apply emits_device. reflexivity. Qed.

Lemma emits_pwm_duty (d : Z) : emits (pwm_duty_u16 d) tt [PwmDuty d].
Proof. apply emits_device. reflexivity. Qed.

Lemma command_emits (lcd : I2cLcd.t) (b : Z) :
  I2cLcd.bl lcd = I2cLcd.MASK_BL -> 0 <= b < 256 ->
  emits (I2cLcd.command lcd b) tt
        (two_nibbles (I2cLcd.addr lcd) b 0 ++
         (if decide (b = 1 \/ b = 2) then [SleepMs 2] else [])).
Proof.
  intros Hbl Hb. unfold I2cLcd.command.
  apply emits_bind with (a := tt); [apply send_byte_emits; auto|].
  destruct (decide (b = 1 \/ b = 2)) as [[->| ->]|Hne]; simpl.
  - apply emits_sleep_ms.
  - apply emits_sleep_ms.
  - destruct (Z.eqb_spec b 1); [tauto|]. destruct (Z.eqb_spec b 2); [tauto|].
    apply emits_ret.
Qed.

(** C8.  On a board without faults the constructor of the display driver
    makes exactly the calls of [init_sequence], in that order: the settle
    delay, three wake pulses (nibble 3) with their delays, the mode switch
    (nibble 2), then 0x28, 0x08, 0x01 with its longer delay, 0x06 and 0x0C.
    After it, every command byte and every data byte goes out as its high
    nibble then its low nibble, one strobe each, and the commands 0x01 and
    0x02, and only they, are followed by the extra 2 ms delay. *)
Theorem lcd_init_and_byte_protocol (h : Hw) (a cols rows b : Z) :
  faults h = [] -> 0 <= b < 256 ->
  let lcd := I2cLcd.mk a cols rows I2cLcd.MASK_BL in
  (res (I2cLcd.__init__ a cols rows h) = Ok lcd /\
   evs (I2cLcd.__init__ a cols rows h) = init_sequence a) /\
  (res (I2cLcd.command lcd b h) = Ok tt /\
   evs (I2cLcd.command lcd b h) =
     two_nibbles a b 0 ++ (if decide (b = 1 \/ b = 2) then [SleepMs 2] else [])) /\
  (res (I2cLcd.write_char lcd b h) = Ok tt /\
   evs (I2cLcd.write_char lcd b h) = two_nibbles a b 1).
Proof.
  intros Hh Hb lcd.
  destruct (init_emits a cols rows h Hh) as (Hr & He & _).
  destruct (command_emits lcd b eq_refl Hb h Hh) as (Hr1 & He1 & _).
  destruct (send_byte_emits lcd b 1 eq_refl Hb (or_intror eq_refl) h Hh)
    as (Hr2 & He2 & _).
  repeat split; assumption.
Qed.

(** The driver started at address 0x27 on a fresh board, and the letter
    [A] (0x41) written afterwards as nibbles 4 and 1 with RS high. *)
Lemma lcd_init_and_byte_protocol_witness :
  evs (I2cLcd.__init__ 0x27 16 2 (mkHw 0 0 0 [])) = init_sequence 0x27 /\
  evs (I2cLcd.write_char (I2cLcd.mk 0x27 16 2 8) 0x41 (mkHw 0 0 0 [])) =
    [ I2cWrite 0x27 0x4D; SleepUs 1; I2cWrite 0x27 0x49; SleepUs 50;
      I2cWrite 0x27 0x1D; SleepUs 1; I2cWrite 0x27 0x19; SleepUs 50 ].
Proof.
  pose proof (lcd_init_and_byte_protocol (mkHw 0 0 0 []) 0x27 16 2 0x41
                eq_refl ltac:(lia)) as (Hinit & _ & Hchar).
  split; [exact (proj2 Hinit) | exact (proj2 Hchar)].
Defined.

(** ** The tone generator *)

Lemma outcome_ret (vol : Z) (h : Hw) :
  pwm_duty h = 0 -> outcome vol [] (ret tt h).
Proof. intros Hd. split; [now exists []|]. simpl. auto. Qed.

Lemma outcome_bind (vol : Z) (l1 l2 : list Event) (m k : M Hw unit) (h : Hw) :
  outcome vol l1 (m h) ->
  (forall h', pwm_duty h' = 0 -> outcome vol l2 (k h')) ->
  outcome vol (l1 ++ l2) (bind m (fun _ => k) h).
Proof.
  intros [[r1 Hp1] Hm] Hk. unfold bind.
  destruct (res (m h)) as [[]|e] eqn:Hr.
  - destruct Hm as [He Hd]. destruct (Hk _ Hd) as [[r2 Hp2] Hk'].
    split; simpl.
    + exists r2. rewrite He, Hp2. now rewrite app_assoc.
    + destruct (res (k (st (m h)))) as [[]|e'].
      * destruct Hk' as [He' Hd']. now rewrite He, He'.
      * destruct Hk' as [Hz|(Hv & pre & f & d & Hev)]; [now left|].
        right. split; [exact Hv|]. exists (evs (m h) ++ pre), f, d.
        rewrite <- !app_assoc. destruct Hev as [-> | ->]; auto.
  - split; simpl.
    + exists (r1 ++ l2). rewrite Hp1. now rewrite app_assoc.
    + exact Hm.
Qed.

Lemma outcome_silence (bz : Buzzer.t) (ms : Z) (h : Hw) :
  pwm_duty h = 0 ->
  outcome (Buzzer.volume bz) [PwmDuty 0; SleepMs ms] (Buzzer.silence bz ms h).
Proof.
  destruct h as [c f d fs]. simpl. intros ->.
  destruct fs as [|[e1|] [|[e2|] fs]]; (split; [eexists; reflexivity|]);
    cbn; auto.
Qed.

Lemma outcome_tone (bz : Buzzer.t) (freq ms : Z) (h : Hw) :
  pwm_duty h = 0 ->
  outcome (Buzzer.volume bz)
          (if 0 <? freq then [PwmFreq freq; PwmDuty (Buzzer.volume bz); SleepMs ms; PwmDuty 0]
           else [PwmDuty 0; SleepMs ms])
          (Buzzer.tone bz freq ms h).
Proof.
  intros Hd. unfold Buzzer.tone.
  destruct (Z.leb_spec freq 0) as [Hle|Hgt].
  - destruct (Z.ltb_spec 0 freq); [lia|]. now apply outcome_silence.
  - destruct (Z.ltb_spec 0 freq); [|lia].
    destruct h as [c f d fs]. simpl in Hd. subst d.
    destruct fs as [|[e1|] [|[e2|] [|[e3|] [|[e4|] fs]]]];
      (split; [eexists; reflexivity|]); cbn; auto;
      right; (split; [reflexivity|]); exists [], freq, ms; cbn; auto.
Qed.

Lemma outcome_entry (bz : Buzzer.t) (e : Z * Z * Z) (h : Hw) :
  pwm_duty h = 0 ->
  outcome (Buzzer.volume bz) (entry_calls (Buzzer.volume bz) e)
          (let '(f, d, g) := e in
           bind (Buzzer.tone bz f d)
                (fun _ => if g =? 0 then ret tt else Buzzer.silence bz g) h).
Proof.
  destruct e as [[f d] g]. intros Hd. unfold entry_calls.
  apply outcome_bind; [now apply outcome_tone|].
  intros h' Hd'. destruct (g =? 0); [now apply outcome_ret | now apply outcome_silence].
Qed.

Lemma outcome_play (bz : Buzzer.t) (seq : Melody) (h : Hw) :
  pwm_duty h = 0 ->
  outcome (Buzzer.volume bz) (concat (map (entry_calls (Buzzer.volume bz)) seq))
          (Buzzer.play bz seq h).
Proof.
  unfold Buzzer.play. revert h. induction seq as [|e seq IH]; intros h Hd.
  - now apply outcome_ret.
  - simpl.
    change (outcome (Buzzer.volume bz)
      (entry_calls (Buzzer.volume bz) e ++
       concat (map (entry_calls (Buzzer.volume bz)) seq))
      (bind (let '(f, d, g) := e in
             bind (Buzzer.tone bz f d)
               (fun _ => if g =? 0 then ret tt else Buzzer.silence bz g))
            (fun _ => for_each seq (fun '(f, d, g) =>
               bind (Buzzer.tone bz f d)
                 (fun _ => if g =? 0 then ret tt else Buzzer.silence bz g))) h)).
    apply outcome_bind; [|exact IH].
    pose proof (outcome_entry bz e h Hd) as H. destruct e as [[f d] g]. exact H.
Qed.

Lemma emits_silence (bz : Buzzer.t) (ms : Z) :
  emits (Buzzer.silence bz ms) tt [PwmDuty 0; SleepMs ms].
Proof.
  apply (emits_bind _ _ tt tt [PwmDuty 0] [SleepMs ms]);
    [apply emits_pwm_duty | apply emits_sleep_ms].
Qed.

Lemma emits_play (bz : Buzzer.t) (seq : Melody) :
  emits (Buzzer.play bz seq) tt
        (concat (map (entry_calls (Buzzer.volume bz)) seq)).
Proof.
  unfold Buzzer.play. induction seq as [|[[f d] g] seq IH].
  - apply emits_ret.
  - simpl for_each. simpl concat.
    apply (emits_bind _ _ tt tt); [|exact IH].
    unfold entry_calls.
    apply (emits_bind _ _ tt tt).
    + unfold Buzzer.tone.
      destruct (Z.leb_spec f 0); destruct (Z.ltb_spec 0 f); try lia.
      * apply emits_silence.
      * apply (emits_bind _ _ tt tt [PwmFreq f]); [apply emits_pwm_freq|].
        apply (emits_bind _ _ tt tt [PwmDuty _]); [apply emits_pwm_duty|].
        apply (emits_bind _ _ tt tt [SleepMs d]); [apply emits_sleep_ms|].
        apply emits_pwm_duty.
    + destruct (g =? 0); [apply emits_ret | apply emits_silence].
Qed.

Lemma duty_after_app (d : Z) (l1 l2 : list Event) :
  duty_after d (l1 ++ l2) = duty_after (duty_after d l1) l2.
Proof.
  revert d. induction l1 as [|ev l1 IH]; intros d; [reflexivity|].
  destruct ev; simpl; apply IH.
Qed.

Lemma tracks_ret {A} (a : A) : tracks (ret a).
Proof. intros h. split; [reflexivity|]. intros e He. discriminate. Qed.

Lemma tracks_bind {A B} (m : M Hw A) (k : A -> M Hw B) :
  tracks m -> (forall a, tracks (k a)) -> tracks (bind m k).
Proof.
  intros Hm Hk h. destruct (Hm h) as [Hd Hne].
  unfold bind, effective in *.
  destruct (res (m h)) as [a|e] eqn:Hr; cbn [res st evs prepend].
  - destruct (Hk a (st (m h))) as [Hd' Hne']. unfold effective in Hd'.
    destruct (res (k a (st (m h)))) as [b|e'] eqn:Hr'.
    + split; [|intros e He; discriminate].
      rewrite duty_after_app, <- Hd. exact Hd'.
    + split.
      * rewrite removelast_app by exact (Hne' e' eq_refl).
        rewrite duty_after_app, <- Hd. exact Hd'.
      * intros e _ Happ. apply app_eq_nil in Happ. exact (Hne' e' eq_refl (proj2 Happ)).
  - split; [exact Hd|]. intros e' _. exact (Hne e eq_refl).
Qed.

Lemma tracks_pwm_duty (d : Z) : tracks (pwm_duty_u16 d).
Proof.
  intros [c f d0 fs]. unfold pwm_duty_u16, device, effective.
  destruct fs as [|[e|] fs]; cbn; (split; [reflexivity|]); intros e' He; discriminate.
Qed.

Lemma tracks_pwm_freq (hz : Z) : tracks (pwm_freq hz).
Proof.
  intros [c f d0 fs]. unfold pwm_freq, device, effective.
  destruct fs as [|[e|] fs]; cbn; (split; [reflexivity|]); intros e' He; discriminate.
Qed.

Lemma tracks_sleep_ms (ms : Z) : tracks (sleep_ms ms).
Proof.
  intros [c f d0 fs]. unfold sleep_ms, device, effective.
  destruct fs as [|[e|] fs]; cbn; (split; [reflexivity|]); intros e' He; discriminate.
Qed.

Lemma tracks_silence (bz : Buzzer.t) (ms : Z) : tracks (Buzzer.silence bz ms).
Proof.
  apply tracks_bind; [apply tracks_pwm_duty | intros _; apply tracks_sleep_ms].
Qed.

Lemma tracks_tone (bz : Buzzer.t) (freq ms : Z) : tracks (Buzzer.tone bz freq ms).
Proof.
  unfold Buzzer.tone. destruct (freq <=? 0); [apply tracks_silence|].
  apply tracks_bind; [apply tracks_pwm_freq | intros _].
  apply tracks_bind; [apply tracks_pwm_duty | intros _].
  apply tracks_bind; [apply tracks_sleep_ms | intros _].
  apply tracks_pwm_duty.
Qed.

Lemma tracks_play (bz : Buzzer.t) (seq : Melody) : tracks (Buzzer.play bz seq).
Proof.
  unfold Buzzer.play. induction seq as [|[[f d] g] seq IH].
  - apply tracks_ret.
  - simpl for_each. apply tracks_bind; [|intros _; exact IH].
    apply tracks_bind; [apply tracks_tone | intros _].
    destruct (g =? 0); [apply tracks_ret | apply tracks_silence].
Qed.

Lemma raised_in_tone_duty (vol d0 : Z) (l : list Event) :
  raised_in_tone vol l -> duty_after d0 (removelast l) = vol.
Proof.
  intros (pre & f & d & [-> | ->]);
    rewrite removelast_app by discriminate; cbn [removelast];
    rewrite duty_after_app; reflexivity.
Qed.

(** C7, as the code has it.  Started silent, [play] makes the calls of
    its entries strictly in sequence order (at any moment an initial part
    of them), a tone at the configured volume for an entry with a positive
    frequency, a rest for any other, and silence for each nonzero gap.
    Without faults it returns; whenever it returns the duty is zero.  It
    has no cleanup of its own: when a device call raises, [play] ends with
    that call, and the duty is zero unless the call that raised was the
    delay of a sounding tone or the duty write ending it; in that case the
    output stays at the configured volume. *)
Theorem play_in_order_without_cleanup (bz : Buzzer.t) (seq : Melody) (h : Hw) :
  pwm_duty h = 0 ->
  let o := Buzzer.play bz seq h in
  let vol := Buzzer.volume bz in
  let calls := concat (map (entry_calls vol) seq) in
  (exists rest, calls = evs o ++ rest) /\
  (faults h = [] -> res o = Ok tt) /\
  (res o = Ok tt -> evs o = calls /\ pwm_duty (st o) = 0) /\
  (forall e, res o = Raise e ->
     pwm_duty (st o) = 0 \/
     (pwm_duty (st o) = vol /\
      exists pre f d,
        evs o = pre ++ [PwmFreq f; PwmDuty vol; SleepMs d] \/
        evs o = pre ++ [PwmFreq f; PwmDuty vol; SleepMs d; PwmDuty 0])) /\
  (forall e, res o = Raise e ->
     (raised_in_tone vol (evs o) -> pwm_duty (st o) = vol) /\
     (~ raised_in_tone vol (evs o) -> pwm_duty (st o) = 0)).
Proof.
  intros Hd o vol calls.
  destruct (outcome_play bz seq h Hd) as [Hpre Hres].
  fold o in Hpre, Hres. fold vol in Hres. fold vol calls in Hpre.
  split; [exact Hpre|].
  split; [intros Hf; exact (proj1 (emits_play bz seq h Hf))|].
  split; [intros H; rewrite H in Hres; exact Hres|].
  split; [intros e He; rewrite He in Hres; exact Hres|].
  intros e He. split.
  - intros Ht. destruct (tracks_play bz seq h) as [Hdu _].
    fold o in Hdu. unfold effective in Hdu. rewrite He in Hdu.
    rewrite Hdu. now apply raised_in_tone_duty.
  - intros Hn. rewrite He in Hres.
    destruct Hres as [Hz|[_ Ht]]; [exact Hz|]. now destruct Hn.
Qed.

(** The start chime on a silent board: without faults it makes all its
    calls and ends silent; when the delay of its second tone raises, it
    ends there with the output at the volume. *)
Lemma play_in_order_without_cleanup_witness :
  let bz := Buzzer.mk VOLUME_DUTY in
  let h := mkHw 0 0 0 [] in
  let h' := mkHw 0 0 0 [None; None; None; None; None; None; None; None; Some OSError] in
  (pwm_duty h = 0 /\
   evs (Buzzer.play bz START_CHIME h) =
     [ PwmFreq 523; PwmDuty 32768; SleepMs 90; PwmDuty 0; PwmDuty 0; SleepMs 10;
       PwmFreq 659; PwmDuty 32768; SleepMs 90; PwmDuty 0; PwmDuty 0; SleepMs 10;
       PwmFreq 784; PwmDuty 32768; SleepMs 120; PwmDuty 0 ] /\
   pwm_duty (st (Buzzer.play bz START_CHIME h)) = 0) /\
  (pwm_duty h' = 0 /\
   res (Buzzer.play bz START_CHIME h') = Raise OSError /\
   evs (Buzzer.play bz START_CHIME h') =
     [ PwmFreq 523; PwmDuty 32768; SleepMs 90; PwmDuty 0; PwmDuty 0; SleepMs 10;
       PwmFreq 659; PwmDuty 32768; SleepMs 90 ] /\
   pwm_duty (st (Buzzer.play bz START_CHIME h')) = 32768).
Proof.
  intros bz h h'. split.
  - split; [reflexivity|].
    pose proof (play_in_order_without_cleanup bz START_CHIME h eq_refl)
      as (_ & Hok & Hret & _).
    exact (Hret (Hok eq_refl)).
  - assert (Hr : res (Buzzer.play bz START_CHIME h') = Raise OSError)
      by (vm_compute; reflexivity).
    assert (He : evs (Buzzer.play bz START_CHIME h') =
      [ PwmFreq 523; PwmDuty 32768; SleepMs 90; PwmDuty 0; PwmDuty 0; SleepMs 10;
        PwmFreq 659; PwmDuty 32768; SleepMs 90 ]) by (vm_compute; reflexivity).
    split; [reflexivity|]. split; [exact Hr|]. split; [exact He|].
    pose proof (play_in_order_without_cleanup bz START_CHIME h' eq_refl) as H.
    cbv zeta in H. destruct H as (_ & _ & _ & _ & H).
    apply (proj1 (H OSError Hr)).
    exists [ PwmFreq 523; PwmDuty 32768; SleepMs 90; PwmDuty 0; PwmDuty 0; SleepMs 10 ],
           659, 90.
    left. exact He.
Defined.

(** C7 as stated fails.  The third device call of the start chime is the
    delay of its first tone; when that call raises, [play] ends with the
    output still at the volume, whether the exception is the operator's
    break or one that the caller's [except Exception] catches.  And an
    entry whose frequency is not positive produces no tone at all. *)
Lemma play_error_leaves_tone_on :
  let bz := Buzzer.mk VOLUME_DUTY in
  (let o := Buzzer.play bz START_CHIME (mkHw 0 0 0 [None; None; Some KeyboardInterrupt]) in
   res o = Raise KeyboardInterrupt /\ pwm_duty (st o) <> 0) /\
  (let o := Buzzer.play bz START_CHIME (mkHw 0 0 0 [None; None; Some OSError]) in
   res o = Raise OSError /\ pwm_duty (st o) = 32768 /\
   evs o = [PwmFreq 523; PwmDuty 32768; SleepMs 90]) /\
  evs (Buzzer.play bz [(0, 100, 0)] (mkHw 0 0 0 [])) = [PwmDuty 0; SleepMs 100].
Proof. vm_compute. repeat split; discriminate. Qed.

(** ** Running the game step by step *)

Lemma prepend_nil {S A} (o : Out S A) : prepend [] o = o.
Proof. now destruct o. Qed.

Lemma bind_run {S A B} (m : M S A) (k : A -> M S B) s a s' l :
  m s = mkOut (Ok a) s' l -> bind m k s = prepend l (k a s').
Proof. intros H. unfold bind. now rewrite H. Qed.

Lemma bind_update {B} f (k : unit -> M World B) w :
  bind (update f) k w = k tt (mkWorld (f (self w)) (board w)).
Proof. unfold bind, update, modify. simpl. apply prepend_nil. Qed.

Lemma bind_get {A B} (f : BuzzerGame -> A) (k : A -> M World B) w :
  bind (get f) k w = k (f (self w)) w.
Proof. unfold bind, get, gets. simpl. apply prepend_nil. Qed.

Lemma bind_ticks {B} (k : Z -> M World B) w :
  bind (lift ticks_ms) k w = k (ticks_now (board w)) w.
Proof.
  unfold bind, lift, ticks_ms, gets. destruct w. simpl. apply prepend_nil.
Qed.

Lemma stable_bind {A B} P (m : M World A) (k : A -> M World B) :
  stable P m -> (forall a, stable P (k a)) -> stable P (bind m k).
Proof.
  intros Hm Hk w Hw. unfold bind. specialize (Hm w Hw).
  destruct (res (m w)); simpl; [now apply Hk | exact Hm].
Qed.

Lemma stable_try P (m : M World unit) (h : exn -> M World unit) :
  stable P m -> (forall e, stable P (h e)) -> stable P (try_except m h).
Proof.
  intros Hm Hh w Hw. unfold try_except. specialize (Hm w Hw).
  destruct (res (m w)) as [|e]; [exact Hm|].
  destruct (is_Exception e); simpl; [now apply Hh | exact Hm].
Qed.

Lemma stable_lift {A} P (m : M Hw A) : stable P (lift m).
Proof. intros w Hw. exact Hw. Qed.

Lemma stable_get {A} P (f : BuzzerGame -> A) : stable P (get f).
Proof. intros w Hw. exact Hw. Qed.

Lemma stable_ret {A} P (a : A) : stable P (ret a).
Proof. intros w Hw. exact Hw. Qed.

Lemma stable_raise {A} P (e : exn) : stable P (@raise World A e).
Proof. intros w Hw. exact Hw. Qed.

Lemma stable_print P (line : string) : stable P (print line).
Proof. intros w Hw. exact Hw. Qed.

Lemma stable_update (P : BuzzerGame -> Prop) f :
  (forall g, P g -> P (f g)) -> stable P (update f).
Proof. intros Hf w Hw. simpl. now apply Hf. Qed.

Ltac stable_step :=
  lazymatch goal with
  | |- stable _ (bind _ _) => apply stable_bind; [|intros ?]
  | |- stable _ (try_except _ _) => apply stable_try; [|intros ?]
  | |- stable _ (lift _) => apply stable_lift
  | |- stable _ (get _) => apply stable_get
  | |- stable _ (ret _) => apply stable_ret
  | |- stable _ (raise _) => apply stable_raise
  | |- stable _ (print _) => apply stable_print
  | |- stable _ (if ?b then _ else _) => destruct b
  | |- stable _ (match ?x with Some _ => _ | None => _ end) => destruct x
  | |- stable _ (let x := ?v in _) => cbv zeta
  end.

(** ** The LED loops *)

Lemma led_loop_from (lev : nat -> Z) (g : BuzzerGame) (b : Hw) (suf : list Pin) :
  forall (pre : list Pin) (a : nat), length pre = a ->
  for_each (seq a (length suf)) (fun i => Game.pin_value i (lev i))
           (mkWorld (set_leds (pre ++ suf) g) b)
  = mkOut (Ok tt)
      (mkWorld (set_leds (pre ++ imap (fun i p => mkPin (gpio p) (lev (a + i)%nat)) suf) g) b)
      (imap (fun i p => PinWrite (gpio p) (lev (a + i)%nat)) suf).
Proof.
  induction suf as [|p suf IH]; intros pre a Ha.
  - reflexivity.
  - simpl length. simpl seq. simpl for_each.
    assert (Hlook : (pre ++ p :: suf) !! a = Some p)
      by (subst a; apply list_lookup_middle; reflexivity).
    erewrite bind_run; cycle 1.
    { unfold Game.pin_value. simpl. rewrite Hlook. reflexivity. }
    simpl.
    replace (<[a:=mkPin (gpio p) (lev a)]> (pre ++ p :: suf))
      with ((pre ++ [mkPin (gpio p) (lev a)]) ++ suf); cycle 1.
    { subst a. rewrite <- app_assoc. simpl.
      rewrite insert_app_r_alt by lia. now rewrite Nat.sub_diag. }
    change (set_leds ((pre ++ [mkPin (gpio p) (lev a)]) ++ suf)
              (set_leds (pre ++ p :: suf) g))
      with (set_leds ((pre ++ [mkPin (gpio p) (lev a)]) ++ suf) g).
    rewrite (IH (pre ++ [mkPin (gpio p) (lev a)]) (S a))
      by (rewrite length_app; simpl; lia).
    unfold prepend. simpl. rewrite <- app_assoc. simpl.
    rewrite Nat.add_0_r.
    f_equal.
    + do 2 f_equal. f_equal. f_equal. apply imap_ext. intros i x _. simpl.
      now rewrite Nat.add_succ_r.
    + f_equal. apply imap_ext. intros i x _. simpl. now rewrite Nat.add_succ_r.
Qed.

Lemma led_loop (lev : nat -> Z) (w : World) :
  for_each (seq 0 (length (leds (self w)))) (fun i => Game.pin_value i (lev i)) w
  = mkOut (Ok tt)
      (mkWorld (set_leds (relevel lev (leds (self w))) (self w)) (board w))
      (pin_writes lev (leds (self w))).
Proof.
  destruct w as [g b]. destruct g as [d bz L ro wi wt le lr rr lh]. simpl.
  exact (led_loop_from lev (mkGame d bz L ro wi wt le lr rr lh) b L [] 0%nat eq_refl).
Qed.

Lemma for_each_ext {S A} (l : list A) (f g : A -> M S unit) :
  (forall x s, f x s = g x s) -> forall s, for_each l f s = for_each l g s.
Proof.
  intros Hfg. induction l as [|x l IH]; intros s; [reflexivity|].
  simpl. unfold bind. rewrite Hfg. destruct (res (g x s)); [|reflexivity].
  now rewrite IH.
Qed.

Lemma leds_all_off_run (w : World) :
  Game._leds_all_off w
  = mkOut (Ok tt)
      (mkWorld (set_leds (relevel (fun _ => Game.OFF) (leds (self w))) (self w)) (board w))
      (pin_writes (fun _ => Game.OFF) (leds (self w))).
Proof.
  unfold Game._leds_all_off. rewrite bind_get.
  exact (led_loop (fun _ => Game.OFF) w).
Qed.

Lemma winner_leds_run (idx : nat) (w : World) :
  for_each (seq 0 (length (leds (self w))))
           (fun i => if (i =? idx)%nat then Game._led_on i else Game._led_off i) w
  = mkOut (Ok tt)
      (mkWorld (set_leds (relevel (only idx) (leds (self w))) (self w)) (board w))
      (pin_writes (only idx) (leds (self w))).
Proof.
  rewrite <- (led_loop (only idx) w). apply for_each_ext.
  intros i s. unfold only. now destruct (i =? idx)%nat.
Qed.

Lemma stable_eq {A} (m : M World A) (w : World) :
  stable (fun g => g = self w) m -> self (st (m w)) = self w.
Proof. intros H. exact (H w eq_refl). Qed.

Lemma self_bind_run {A B} (m : M World A) (k : A -> M World B) w a w' l :
  m w = mkOut (Ok a) w' l -> self (st (bind m k w)) = self (st (k a w')).
Proof. intros H. rewrite (bind_run _ _ _ _ _ _ H). reflexivity. Qed.

(** Whatever the display and the buzzer do, [_declare_winner] leaves the
    game object closed on [idx], and [reset_round] leaves it reopened. *)
Lemma declare_winner_self (idx : nat) (w : World) :
  self (st (Game._declare_winner idx w))
  = closed_on idx (ticks_now (board w)) (self w).
Proof.
  unfold Game._declare_winner.
  rewrite !bind_update, bind_ticks, bind_update, bind_get.
  erewrite self_bind_run by apply winner_leds_run.
  rewrite stable_eq by (repeat stable_step).
  reflexivity.
Qed.

Lemma reset_round_self (w : World) :
  self (st (Game.reset_round w)) = reopened (self w).
Proof.
  unfold Game.reset_round.
  rewrite !bind_update.
  erewrite self_bind_run by apply leds_all_off_run.
  rewrite stable_eq by (unfold Game._play_start_chime; repeat stable_step).
  reflexivity.
Qed.

(** ** The callbacks *)

Lemma irq_btn_rejected (i : nat) (w : World) (t : Z) :
  last_edge (self w) !! i = Some t ->
  ticks_diff (ticks_now (board w)) t < DEBOUNCE_MS ->
  Game._irq_btn i w = mkOut (Ok tt) w [].
Proof.
  intros Ht Hlt. unfold Game._irq_btn. rewrite bind_ticks, bind_get, Ht.
  destruct (Z.ltb_spec (ticks_diff (ticks_now (board w)) t) DEBOUNCE_MS); [reflexivity|lia].
Qed.

Lemma irq_btn_accepted (i : nat) (w : World) (t : Z) :
  last_edge (self w) !! i = Some t ->
  DEBOUNCE_MS <= ticks_diff (ticks_now (board w)) t ->
  Game._irq_btn i w =
    if round_open (self w) then Game._declare_winner i (stamped i w)
    else mkOut (Ok tt) (stamped i w) [].
Proof.
  intros Ht Hge. unfold Game._irq_btn. rewrite bind_ticks, bind_get, Ht.
  destruct (Z.ltb_spec (ticks_diff (ticks_now (board w)) t) DEBOUNCE_MS); [lia|].
  rewrite bind_update, bind_get.
  change (round_open (self (mkWorld _ (board w)))) with (round_open (self w)).
  destruct (round_open (self w)); reflexivity.
Qed.

Lemma irq_btn_out_of_range (i : nat) (w : World) :
  last_edge (self w) !! i = None ->
  Game._irq_btn i w = mkOut (Raise IndexError) w [].
Proof.
  intros Ht. unfold Game._irq_btn. rewrite bind_ticks, bind_get, Ht. reflexivity.
Qed.

Lemma irq_r_run (w : World) :
  Game._irq_r w =
    if ticks_diff (ticks_now (board w)) (last_r (self w)) <? DEBOUNCE_MS
    then mkOut (Ok tt) w []
    else mkOut (Ok tt)
           (mkWorld (set_reset_requested true
                       (set_last_r (ticks_now (board w)) (self w))) (board w)) [].
Proof.
  unfold Game._irq_r. rewrite bind_ticks, bind_get.
  destruct (ticks_diff (ticks_now (board w)) (last_r (self w)) <? DEBOUNCE_MS);
    [reflexivity|].
  rewrite bind_update. reflexivity.
Qed.

(** ** Properties the program maintains *)

Lemma relevel_gpio (lev : nat -> Z) (l : list Pin) :
  map gpio (relevel lev l) = map gpio l.
Proof.
  unfold relevel. revert lev. induction l as [|p l IH]; intros lev; [reflexivity|].
  simpl. f_equal. apply (IH (fun i => lev (S i))).
Qed.

Lemma relevel_lookup (lev : nat -> Z) (l : list Pin) (j : nat) (p : Pin) :
  relevel lev l !! j = Some p -> level p = lev j.
Proof.
  unfold relevel. rewrite list_lookup_imap.
  destruct (l !! j) as [q|]; simpl; [|discriminate].
  intros H. injection H as <-. reflexivity.
Qed.

Lemma relevel_length (lev : nat -> Z) (l : list Pin) :
  length (relevel lev l) = length l.
Proof. unfold relevel. apply length_imap. Qed.

Lemma stable_declare_winner (P : BuzzerGame -> Prop) (i : nat) :
  (forall g now, P g -> P (closed_on i now g)) -> stable P (Game._declare_winner i).
Proof. intros H w Hw. rewrite declare_winner_self. now apply H. Qed.

Lemma stable_reset_round (P : BuzzerGame -> Prop) :
  (forall g, P g -> P (reopened g)) -> stable P Game.reset_round.
Proof. intros H w Hw. rewrite reset_round_self. now apply H. Qed.

Lemma stable_irq_btn (P : BuzzerGame -> Prop) (i : nat) :
  (forall g now, P g -> P (set_last_edge (<[i := now]> (last_edge g)) g)) ->
  (forall g now, P g -> P (closed_on i now g)) ->
  stable P (Game._irq_btn i).
Proof.
  intros He Hc. unfold Game._irq_btn.
  repeat first
    [ apply stable_update; intros g; apply He
    | apply stable_declare_winner; exact Hc
    | stable_step ].
Qed.

Lemma stable_irq_r (P : BuzzerGame -> Prop) :
  (forall g now, P g -> P (set_last_r now g)) ->
  (forall g, P g -> P (set_reset_requested true g)) ->
  stable P Game._irq_r.
Proof.
  intros Hr Hq. unfold Game._irq_r.
  repeat first
    [ apply stable_update; intros g; first [apply Hr | apply Hq]
    | stable_step ].
Qed.

Lemma stable_loop_iter (P : BuzzerGame -> Prop) (held : nat) :
  (forall g now, P g -> P (set_last_reset_handled now g)) ->
  (forall g, P g -> P (set_reset_requested false g)) ->
  (forall g, P g -> P (reopened g)) ->
  stable P (Game.loop_iter held).
Proof.
  intros Hh Hq Hr. unfold Game.loop_iter.
  repeat first
    [ apply stable_update; intros g; first [apply Hh | apply Hq]
    | apply stable_reset_round; exact Hr
    | stable_step ].
Qed.

(** ** The constructor *)

Lemma returns_bind {S A B} (m : M S A) (k : A -> M S B) (P : B -> Prop) :
  (forall a, returns (k a) P) -> returns (bind m k) P.
Proof.
  intros Hk s b. unfold bind. destruct (res (m s)) as [a|e] eqn:Hm; simpl.
  - apply Hk.
  - discriminate.
Qed.

Lemma returns_ret {S A} (a : A) (P : A -> Prop) : P a -> returns (@ret S A a) P.
Proof. intros H s b Hb. simpl in Hb. now injection Hb as <-. Qed.

Lemma Ok_inj {A} (a b : A) : Ok a = Ok b -> a = b.
Proof. now intros [= ->]. Qed.

Lemma lcd_init_returns (a cols rows : Z) :
  returns (I2cLcd.__init__ a cols rows)
          (fun d => d = I2cLcd.mk a cols rows I2cLcd.MASK_BL).
Proof.
  unfold I2cLcd.__init__. cbv zeta.
  repeat (apply returns_bind; intros ?).
  now apply returns_ret.
Qed.

Lemma buzzer_init_returns (vol : Z) :
  returns (Buzzer.__init__ vol)
          (fun bz => bz = Buzzer.mk (Z.max 0 (Z.min 65535 vol))).
Proof.
  unfold Buzzer.__init__.
  repeat (apply returns_bind; intros ?).
  now apply returns_ret.
Qed.

Lemma boot_self (h : Hw) (w : World) :
  res (Game.__init__ h) = Ok w ->
  self w = mkGame (I2cLcd.mk LCD_ADDR LCD_COLS LCD_ROWS I2cLcd.MASK_BL)
                  (Buzzer.mk VOLUME_DUTY)
                  (map (fun p => mkPin p Game.OFF) LED_PINS)
                  true None 0 (replicate (length BTN_PINS) 0) 0 false 0.
Proof.
  unfold Game.__init__. cbv zeta.
  match goal with |- context [res (bind ?m ?k h)] => set (o := bind m k h) end.
  assert (Ho : forall d bz, res o = Ok (d, bz) ->
            d = I2cLcd.mk LCD_ADDR LCD_COLS LCD_ROWS I2cLcd.MASK_BL /\
            bz = Buzzer.mk VOLUME_DUTY).
  { intros d bz. subst o. revert h d bz.
    assert (H : returns
      (bind (I2cLcd.__init__ LCD_ADDR LCD_COLS LCD_ROWS)
         (fun d => bind (Buzzer.__init__ VOLUME_DUTY) (fun bz => ret (d, bz))))
      (fun x => fst x = I2cLcd.mk LCD_ADDR LCD_COLS LCD_ROWS I2cLcd.MASK_BL /\
                snd x = Buzzer.mk VOLUME_DUTY)).
    { intros s x. unfold bind at 1.
      destruct (res (I2cLcd.__init__ LCD_ADDR LCD_COLS LCD_ROWS s)) as [d|e] eqn:Hd;
        simpl; [|discriminate].
      apply lcd_init_returns in Hd.
      unfold bind.
      match goal with |- context [res (Buzzer.__init__ ?v ?s')] =>
        destruct (res (Buzzer.__init__ v s')) as [bz|e] eqn:Hb end;
        simpl; [|discriminate].
      apply buzzer_init_returns in Hb.
      intros H. injection H as <-. subst d bz. split; reflexivity. }
    intros h d bz Hr. exact (H h (d, bz) Hr). }
  destruct (res o) as [[d bz]|e]; [|discriminate].
  destruct (Ho d bz eq_refl) as [-> ->].
  match goal with |- context [res (bind ?m ?k ?w0)] => set (o' := bind m k w0) end.
  assert (Hs : self (st o') =
    reopened (mkGame (I2cLcd.mk LCD_ADDR LCD_COLS LCD_ROWS I2cLcd.MASK_BL)
                (Buzzer.mk VOLUME_DUTY) (map (fun p => mkPin p 0) LED_PINS)
                true None 0 (replicate (length BTN_PINS) 0) 0 false 0)).
  { subst o'. erewrite self_bind_run by apply leds_all_off_run.
    rewrite stable_eq by (unfold Game._play_start_chime; repeat stable_step).
    reflexivity. }
  destruct (res o'); cbn [res]; [|discriminate].
  intros H. apply Ok_inj in H. rewrite <- H, Hs. reflexivity.
Qed.




Lemma boot_power_on : res (Game.__init__ (mkHw 0 0 0 [])) = Ok power_on.
Proof. vm_compute. reflexivity. Qed.

Lemma reachable_power_on : reachable power_on.
Proof. exact (reach_boot _ _ boot_power_on). Qed.

Lemma ON_neq_OFF : Game.ON <> Game.OFF.
Proof. discriminate. Qed.

Lemma relevel_only_exclusive (i : nat) (l : list Pin) :
  (i < length l)%nat -> exclusive i (relevel (only i) l).
Proof.
  intros Hi. split.
  - destruct (lookup_lt_is_Some_2 (relevel (only i) l) i) as [p Hp].
    { now rewrite relevel_length. }
    exists p. split; [exact Hp|].
    unfold lit. rewrite (relevel_lookup _ _ _ _ Hp). unfold only.
    now rewrite Nat.eqb_refl.
  - intros j p Hp. unfold lit, dark. rewrite (relevel_lookup _ _ _ _ Hp).
    unfold only. destruct (Nat.eqb_spec j i) as [->|Hne].
    + split; split; intros H; try reflexivity; try contradiction.
      now destruct ON_neq_OFF.
    + split; split; intros H; try reflexivity; try exact Hne.
      * now destruct ON_neq_OFF.
      * contradiction.
Qed.

(** ** First press wins *)

(** C1. First press wins, with an exclusive winner output.  In every
    state of a game object as the constructor builds it, a press on
    channel [i] that passes the debounce check runs as follows.  When the
    round is open, the round is closed with winner [i], LED [i] carries
    the active level and every other LED the inactive one; this holds
    whatever the display and the buzzer do afterwards.  When the round is
    already closed, the round stays closed and the winner and the LEDs
    are as they were. *)
Theorem first_press_wins (w : World) (i : nat) (t : Z) :
  wf (self w) ->
  last_edge (self w) !! i = Some t ->
  DEBOUNCE_MS <= ticks_diff (ticks_now (board w)) t ->
  let g' := self (st (Game._irq_btn i w)) in
  (round_open (self w) = true ->
     round_open g' = false /\ winner_idx g' = Some i /\
     exclusive i (leds g') /\ map gpio (leds g') = LED_PINS) /\
  (round_open (self w) = false ->
     round_open g' = false /\ winner_idx g' = winner_idx (self w) /\
     leds g' = leds (self w)).
Proof.
  intros (_ & _ & Hleds & Hlen) Ht Hge g'. subst g'.
  rewrite (irq_btn_accepted i w t Ht Hge).
  assert (Hi : (i < length (leds (self w)))%nat).
  { apply lookup_lt_Some in Ht. rewrite Hlen in Ht.
    rewrite <- (length_map gpio), Hleds. exact Ht. }
  split; intros Hro; rewrite Hro.
  - cbv iota. rewrite declare_winner_self.
    split; [reflexivity|]. split; [reflexivity|]. split.
    + apply relevel_only_exclusive. exact Hi.
    + simpl. now rewrite relevel_gpio.
  - cbv iota. simpl. auto.
Qed.

Lemma first_press_wins_witness :
  wf (self power_on) /\
  last_edge (self power_on) !! 2%nat = Some 0 /\
  DEBOUNCE_MS <= ticks_diff (ticks_now (board power_on)) 0 /\
  round_open (self power_on) = true /\
  winner_idx (self (st (Game._irq_btn 2 power_on))) = Some 2%nat.
Proof.
  assert (Hwf : wf (self power_on)) by (repeat split; reflexivity).
  assert (Ht : last_edge (self power_on) !! 2%nat = Some 0) by reflexivity.
  assert (Hge : DEBOUNCE_MS <= ticks_diff (ticks_now (board power_on)) 0)
    by (vm_compute; discriminate).
  split; [exact Hwf|]. split; [exact Ht|]. split; [exact Hge|].
  split; [reflexivity|].
  exact (proj1 (proj2 (proj1 (first_press_wins power_on 2 0 Hwf Ht Hge) eq_refl))).
Defined.

(** ** The round invariant *)



(** ** Debounce *)

Lemma ticks_diff_self (t : Z) : ticks_diff t t = 0.
Proof. unfold ticks_diff. rewrite Z.sub_diag. reflexivity. Qed.

Lemma accepted_iff (i : nat) (w : World) (t : Z) :
  last_edge (self w) !! i = Some t ->
  accepted i w <-> DEBOUNCE_MS <= ticks_diff (ticks_now (board w)) t.
Proof.
  intros Ht. unfold accepted.
  destruct (Z.lt_ge_cases (ticks_diff (ticks_now (board w)) t) DEBOUNCE_MS) as [Hlt|Hge].
  - rewrite (irq_btn_rejected i w t Ht Hlt). simpl. split; [congruence|lia].
  - rewrite (irq_btn_accepted i w t Ht Hge).
    assert (Hnew : last_edge (self (stamped i w)) !! i = Some (ticks_now (board w))).
    { simpl. apply list_lookup_insert_eq. now apply lookup_lt_Some in Ht. }
    assert (Hne : Some (ticks_now (board w)) <> Some t).
    { intros [= E]. rewrite E, ticks_diff_self in Hge. unfold DEBOUNCE_MS in Hge. lia. }
    split; [intros _; exact Hge|]. intros _. rewrite Ht.
    destruct (round_open (self w)).
    + rewrite declare_winner_self. unfold closed_on. simpl last_edge.
      simpl in Hnew. rewrite Hnew. exact Hne.
    + simpl st. rewrite Hnew. exact Hne.
Qed.

Lemma not_accepted_run (i : nat) (w : World) :
  ~ accepted i w -> st (Game._irq_btn i w) = w.
Proof.
  intros Hn. destruct (last_edge (self w) !! i) as [t|] eqn:Ht.
  - destruct (Z.lt_ge_cases (ticks_diff (ticks_now (board w)) t) DEBOUNCE_MS) as [Hlt|Hge].
    + now rewrite (irq_btn_rejected i w t Ht Hlt).
    + destruct Hn. now apply (accepted_iff i w t Ht).
  - now rewrite (irq_btn_out_of_range i w Ht).
Qed.

Lemma accepted_anchor (i : nat) (w : World) :
  accepted i w ->
  last_edge (self (st (Game._irq_btn i w))) !! i = Some (ticks_now (board w)).
Proof.
  intros Ha. destruct (last_edge (self w) !! i) as [t|] eqn:Ht.
  - pose proof (proj1 (accepted_iff i w t Ht) Ha) as Hge.
    rewrite (irq_btn_accepted i w t Ht Hge).
    assert (Hnew : last_edge (self (stamped i w)) !! i = Some (ticks_now (board w))).
    { simpl. apply list_lookup_insert_eq. now apply lookup_lt_Some in Ht. }
    destruct (round_open (self w)).
    + rewrite declare_winner_self. exact Hnew.
    + exact Hnew.
  - destruct Ha. now rewrite (irq_btn_out_of_range i w Ht).
Qed.

Lemma calm_anchor (i : nat) (w w' : World) :
  calm i w w' -> last_edge (self w') !! i = last_edge (self w) !! i.
Proof.
  induction 1 as [w | w w' _ IH Hn | j w w' _ IH Hj | w w' _ IH
                 | held w w' _ IH | us w w' _ IH].
  - reflexivity.
  - now rewrite (not_accepted_run i w' Hn).
  - revert IH.
    apply (stable_irq_btn (fun g => last_edge g !! i = last_edge (self w) !! i)).
    + intros g now Hg. simpl. now rewrite list_lookup_insert_ne.
    + intros g now Hg. exact Hg.
  - revert IH.
    apply (stable_irq_r (fun g => last_edge g !! i = last_edge (self w) !! i)); auto.
  - revert IH.
    apply (stable_loop_iter (fun g => last_edge g !! i = last_edge (self w) !! i)); auto.
  - exact IH.
Qed.




(** The claim C4 fails where an edge the check discards comes first:
    after the edge accepted at tick 851 on channel 2, the edges at ticks
    901 and 941 are 40 ms apart, less than the window of 80 ms, yet the
    first of the two is discarded and the second accepted; and the edge
    at tick 901 is discarded although the edge that follows it 100 ms
    later is accepted, so of two edges a window apart not both are
    accepted. *)
Lemma debounce_later_edge_of_close_pair_accepted :
  let e1 := idle 50000 (st (Game._irq_btn 2 after_win)) in
  let e2 := idle 40000 (st (Game._irq_btn 2 e1)) in
  let e3 := idle 100000 (st (Game._irq_btn 2 e1)) in
  reachable e1 /\ reachable e2 /\ reachable e3 /\
  ticks_diff (ticks_now (board e2)) (ticks_now (board e1)) = 40 /\
  40 < DEBOUNCE_MS /\
  ~ accepted 2 e1 /\ accepted 2 e2 /\
  ticks_diff (ticks_now (board e3)) (ticks_now (board e1)) = 100 /\
  DEBOUNCE_MS <= 100 /\
  accepted 2 e3.
Proof.
  intros e1 e2 e3.
  assert (Hp : forall w, reachable w -> reachable (st (Game._irq_btn 2 w))).
  { intros w Hw. apply (reach_step w); [exact Hw|]. apply step_press. vm_compute. lia. }
  assert (Hi : forall us w, reachable w -> reachable (idle us w)).
  { intros us w Hw. apply (reach_step w); [exact Hw|]. apply step_idle. }
  assert (H1 : reachable e1).
  { apply Hi, Hp, Hi, Hp. exact reachable_power_on. }
  split; [exact H1|].
  split; [apply Hi, Hp; exact H1|].
  split; [apply Hi, Hp; exact H1|].
  split; [vm_compute; reflexivity|].
  split; [vm_compute; reflexivity|].
  split; [vm_compute; intros H; now apply H|].
  split; [vm_compute; discriminate|].
  split; [vm_compute; reflexivity|].
  split; [vm_compute; discriminate|].
  vm_compute; discriminate.
Qed.

(** C4, amended.  Take two edges on channel [i], the first accepted and
    no edge on the channel accepted between them.  When the tick of the
    second is less than the debounce window after the tick of the first,
    the second is discarded and its callback changes nothing.  When it is
    at least the window after, the second is accepted too: its tick
    becomes the timestamp of the channel whether the round is open or
    not, a winner is declared only when the round is open, and in a
    closed round nothing but the timestamp changes. *)
Theorem debounce_two_edges (i : nat) (w w2 : World) :
  accepted i w ->
  calm i (st (Game._irq_btn i w)) w2 ->
  let T1 := ticks_now (board w) in
  let T2 := ticks_now (board w2) in
  let w3 := st (Game._irq_btn i w2) in
  (ticks_diff T2 T1 < DEBOUNCE_MS ->
     ~ accepted i w2 /\ Game._irq_btn i w2 = mkOut (Ok tt) w2 []) /\
  (DEBOUNCE_MS <= ticks_diff T2 T1 ->
     accepted i w2 /\
     last_edge (self w3) !! i = Some T2 /\
     (round_open (self w2) = true ->
        round_open (self w3) = false /\ winner_idx (self w3) = Some i) /\
     (round_open (self w2) = false -> w3 = stamped i w2)).
Proof.
  intros Ha Hc T1 T2 w3.
  assert (Ht2 : last_edge (self w2) !! i = Some T1).
  { rewrite (calm_anchor i _ _ Hc). exact (accepted_anchor i w Ha). }
  split.
  - intros Hlt. split.
    + intros Ha2. apply (accepted_iff i w2 T1 Ht2) in Ha2. fold T2 in Ha2. lia.
    + exact (irq_btn_rejected i w2 T1 Ht2 Hlt).
  - intros Hge.
    assert (Ha2 : accepted i w2) by (now apply (accepted_iff i w2 T1 Ht2)).
    split; [exact Ha2|]. split; [exact (accepted_anchor i w2 Ha2)|].
    subst w3. rewrite (irq_btn_accepted i w2 T1 Ht2 Hge).
    split; intros Hro; rewrite Hro; cbv iota.
    + rewrite declare_winner_self. split; reflexivity.
    + reflexivity.
Qed.

Lemma debounce_two_edges_witness :
  accepted 2 after_win /\
  calm 2 (st (Game._irq_btn 2 after_win))
         (idle 90000 (st (Game._irq_btn 2 (idle 50000 (st (Game._irq_btn 2 after_win)))))) /\
  accepted 2 (idle 90000 (st (Game._irq_btn 2 (idle 50000 (st (Game._irq_btn 2 after_win)))))).
Proof.
  assert (Ha : accepted 2 after_win) by (vm_compute; discriminate).
  assert (Hc : calm 2 (st (Game._irq_btn 2 after_win))
      (idle 90000 (st (Game._irq_btn 2 (idle 50000 (st (Game._irq_btn 2 after_win))))))).
  { apply calm_idle, calm_bounce; [apply calm_idle, calm_here|].
    vm_compute. intros H. now apply H. }
  split; [exact Ha|]. split; [exact Hc|].
  apply (proj2 (debounce_two_edges 2 after_win _ Ha Hc)).
  vm_compute. discriminate.
Defined.

(** ** Reset *)

Lemma lift_ok {A} (m : M Hw A) (w : World) (a : A) :
  res (m (board w)) = Ok a ->
  lift m w = mkOut (Ok a) (mkWorld (self w) (st (m (board w)))) (evs (m (board w))).
Proof. intros H. unfold lift. cbv zeta. now rewrite H. Qed.

Lemma bind_ret {S A B} (a : A) (k : A -> M S B) (s : S) : bind (ret a) k s = k a s.
Proof. unfold bind, ret. simpl. apply prepend_nil. Qed.

Lemma self_bind_split {A B} (m : M World A) (k : A -> M World B) (w : World)
      (G : BuzzerGame) :
  self (st (m w)) = G ->
  (forall a w', self w' = G -> self (st (k a w')) = G) ->
  self (st (bind m k w)) = G.
Proof.
  intros Hm Hk. unfold bind. destruct (res (m w)) as [a|e]; simpl.
  - now apply Hk.
  - exact Hm.
Qed.

(** With the round open, what follows the reset handling in a pass of
    the loop leaves the game object alone. *)
Lemma loop_tail_open (w : World) :
  round_open (self w) = true ->
  self (st ((ro <- get round_open ;;
             wi <- get winner_idx ;;
             (if negb ro && bool_decide (wi <> None) then
                now <- lift ticks_ms ;;
                t <- get win_ts ;;
                if TIMEOUT_S * 1000 <=? ticks_diff now t then Game.reset_round
                else ret tt
              else ret tt) ;;
             lift (sleep_ms 10))%prog w)) = self w.
Proof.
  intros Hro. rewrite !bind_get, Hro.
  change (negb true && bool_decide (winner_idx (self w) <> None)) with false.
  cbv iota. rewrite bind_ret. reflexivity.
Qed.

Lemma loop_reset_self (held : nat) (w : World) :
  reset_requested (self w) = true ->
  RESET_COOLDOWN_MS <= ticks_diff (ticks_now (board w)) (last_reset_handled (self w)) ->
  res (Game.wait_release held (board w)) = Ok tt ->
  self (st (Game.loop_iter held w))
  = reopened (set_reset_requested false
               (set_last_reset_handled (ticks_now (board w)) (self w))).
Proof.
  intros Hrr Hcd Hrel. unfold Game.loop_iter. rewrite bind_get, Hrr. cbv iota.
  apply self_bind_split.
  - rewrite bind_ticks, bind_get.
    destruct (Z.leb_spec RESET_COOLDOWN_MS
                (ticks_diff (ticks_now (board w)) (last_reset_handled (self w))));
      [|lia].
    erewrite self_bind_run by (apply lift_ok; exact Hrel).
    rewrite !bind_update, reset_round_self. reflexivity.
  - intros _ w' Hw'. rewrite <- Hw'. apply loop_tail_open. now rewrite Hw'.
Qed.

Lemma relevel_off_dark (l : list Pin) : Forall dark (relevel (fun _ => Game.OFF) l).
Proof.
  apply Forall_lookup. intros j p Hp. unfold dark.
  now rewrite (relevel_lookup _ _ _ _ Hp).
Qed.

Lemma before_poll_pending (w w' : World) :
  before_poll w w' ->
  reset_requested (self w) = true ->
  reset_requested (self w') = true /\
  last_reset_handled (self w') = last_reset_handled (self w) /\
  map gpio (leds (self w')) = map gpio (leds (self w)).
Proof.
  intros Hbp Hrr.
  induction Hbp as [w | i w w' _ IH | w w' _ IH | us w w' _ IH].
  - auto.
  - specialize (IH Hrr). revert IH.
    apply (stable_irq_btn (fun g => reset_requested g = true /\
             last_reset_handled g = last_reset_handled (self w) /\
             map gpio (leds g) = map gpio (leds (self w)))).
    + intros g now Hg. exact Hg.
    + intros g now (?&?&?). simpl. now rewrite relevel_gpio.
  - specialize (IH Hrr). revert IH.
    apply (stable_irq_r (fun g => reset_requested g = true /\
             last_reset_handled g = last_reset_handled (self w) /\
             map gpio (leds g) = map gpio (leds (self w)))).
    + intros g now Hg. exact Hg.
    + intros g (?&?&?). simpl. auto.
  - exact (IH Hrr).
Qed.

(** C6. Reset correctness.  Take any state, the round open or closed, in
    which a falling edge on the reset button passes the debounce check of
    its callback.  Whatever callbacks run and however much time passes
    before the polling loop gets to it, the pass of the loop that finds
    the cooldown of 400 ms since the last handled reset over, and that
    sees the button released, leaves the round open, the winner cleared
    and every LED at the inactive level, with the request taken back and
    the tick of this pass kept as the last handled reset; this holds
    whatever the display and the buzzer do during the reset. *)
Theorem reset_yields_open_round (w0 w1 : World) (held : nat) :
  DEBOUNCE_MS <= ticks_diff (ticks_now (board w0)) (last_r (self w0)) ->
  before_poll (st (Game._irq_r w0)) w1 ->
  RESET_COOLDOWN_MS
    <= ticks_diff (ticks_now (board w1)) (last_reset_handled (self w0)) ->
  res (Game.wait_release held (board w1)) = Ok tt ->
  let g' := self (st (Game.loop_iter held w1)) in
  round_open g' = true /\ winner_idx g' = None /\
  Forall dark (leds g') /\ map gpio (leds g') = map gpio (leds (self w0)) /\
  reset_requested g' = false /\
  last_reset_handled g' = ticks_now (board w1).
Proof.
  intros Hdb Hbp Hcd Hrel g'.
  assert (Hr : self (st (Game._irq_r w0))
               = set_reset_requested true (set_last_r (ticks_now (board w0)) (self w0))).
  { rewrite irq_r_run.
    destruct (Z.ltb_spec (ticks_diff (ticks_now (board w0)) (last_r (self w0)))
                DEBOUNCE_MS); [lia|reflexivity]. }
  destruct (before_poll_pending _ _ Hbp) as (Hrr & Hlh & Hg).
  { now rewrite Hr. }
  rewrite Hr in Hlh, Hg. simpl in Hlh, Hg.
  subst g'. rewrite (loop_reset_self held w1 Hrr); [|now rewrite Hlh|exact Hrel].
  split; [reflexivity|]. split; [reflexivity|]. split; [apply relevel_off_dark|].
  split; [|split; reflexivity].
  simpl. now rewrite relevel_gpio.
Qed.

Lemma reset_yields_open_round_witness :
  DEBOUNCE_MS <= ticks_diff (ticks_now (board after_win)) (last_r (self after_win)) /\
  round_open (self after_win) = false /\
  round_open (self (st (Game.loop_iter 3
                (idle 20000 (st (Game._irq_r after_win)))))) = true /\
  winner_idx (self (st (Game.loop_iter 3
                (idle 20000 (st (Game._irq_r after_win)))))) = None.
Proof.
  assert (Hdb : DEBOUNCE_MS
                <= ticks_diff (ticks_now (board after_win)) (last_r (self after_win)))
    by (vm_compute; discriminate).
  split; [exact Hdb|]. split; [reflexivity|].
  assert (Hbp : before_poll (st (Game._irq_r after_win))
                            (idle 20000 (st (Game._irq_r after_win))))
    by (apply bp_idle, bp_here).
  assert (Hcd : RESET_COOLDOWN_MS
      <= ticks_diff (ticks_now (board (idle 20000 (st (Game._irq_r after_win)))))
                    (last_reset_handled (self after_win)))
    by (vm_compute; discriminate).
  assert (Hrel : res (Game.wait_release 3
                   (board (idle 20000 (st (Game._irq_r after_win))))) = Ok tt)
    by (vm_compute; reflexivity).
  pose proof (reset_yields_open_round after_win _ 3 Hdb Hbp Hcd Hrel) as H.
  split; [exact (proj1 H) | exact (proj1 (proj2 H))].
Defined.

(** ** What a reset and a win do to the outside *)

Lemma ready_emits :
  emits (lcd_ready (I2cLcd.mk LCD_ADDR LCD_COLS LCD_ROWS I2cLcd.MASK_BL)) tt ready_screen.
Proof. apply emits_by_run. intros c f d. vm_compute. auto. Qed.

Lemma winner_emits (i : nat) :
  (i < length BTN_PINS)%nat ->
  emits (lcd_winner (I2cLcd.mk LCD_ADDR LCD_COLS LCD_ROWS I2cLcd.MASK_BL)
                    (nth i TEAM_NAMES ""%string))
        tt (winner_screen (nth i TEAM_NAMES ""%string)).
Proof.
  intros Hi. apply emits_by_run. intros c f d.
  do 6 (destruct i as [|i]; [vm_compute; auto|]).
  simpl in Hi. lia.
Qed.

Lemma prepend_out {S A} (l l' : list Event) (r : Res A) (s : S) :
  prepend l (mkOut r s l') = mkOut r s (l ++ l').
Proof. reflexivity. Qed.

Lemma bind_print {B} (line : string) (k : unit -> M World B) (w : World) :
  bind (print line) k w = prepend [Print line] (k tt w).
Proof. reflexivity. Qed.

Lemma try_run {S} (m : M S unit) (h : exn -> M S unit) s s1 l1 :
  m s = mkOut (Ok tt) s1 l1 -> try_except m h s = mkOut (Ok tt) s1 l1.
Proof. intros Hm. unfold try_except. rewrite Hm. reflexivity. Qed.

Lemma out_lift {A} (m : M Hw A) (a : A) (l : list Event) (w : World) :
  emits m a l -> faults (board w) = [] ->
  lift m w = mkOut (Ok a) (mkWorld (self w) (st (m (board w)))) l.
Proof.
  intros Hm Hf. destruct (Hm _ Hf) as (Hr & He & _).
  unfold lift. cbv zeta. now rewrite Hr, He.
Qed.

Lemma emits_faults {A} (m : M Hw A) (a : A) (l : list Event) (h : Hw) :
  emits m a l -> faults h = [] -> faults (st (m h)) = [].
Proof. intros Hm Hf. now destruct (Hm _ Hf) as (_ & _ & ?). Qed.

Lemma reset_round_out (w : World) :
  faults (board w) = [] -> wf (self w) ->
  Game.reset_round w
  = mkOut (Ok tt)
      (mkWorld (reopened (self w))
         (st (Buzzer.play (Buzzer.mk VOLUME_DUTY) START_CHIME
                (st (lcd_ready (I2cLcd.mk LCD_ADDR LCD_COLS LCD_ROWS I2cLcd.MASK_BL)
                       (board w))))))
      (reset_calls (leds (self w))).
Proof.
  intros Hf (Hlcd & Hbz & _ & _).
  unfold Game.reset_round.
  rewrite !bind_update.
  erewrite bind_run by apply leds_all_off_run. cbv beta.
  rewrite bind_get.
  match goal with |- context [lcd_ready ?d] =>
    replace d with (I2cLcd.mk LCD_ADDR LCD_COLS LCD_ROWS I2cLcd.MASK_BL)
      by (symmetry; exact Hlcd) end.
  erewrite bind_run by (apply (out_lift _ _ _ _ ready_emits); exact Hf). cbv beta.
  rewrite bind_print.
  unfold Game._play_start_chime.
  erewrite try_run; cycle 1.
  { rewrite bind_get.
    match goal with |- context [Buzzer.play ?z] =>
      replace z with (Buzzer.mk VOLUME_DUTY) by (symmetry; exact Hbz) end.
    apply (out_lift _ _ _ _ (emits_play _ _)).
    exact (emits_faults _ _ _ _ ready_emits Hf). }
  rewrite !prepend_out. reflexivity.
Qed.

Lemma declare_winner_out (i : nat) (w : World) :
  faults (board w) = [] -> wf (self w) -> (i < length BTN_PINS)%nat ->
  Game._declare_winner i w
  = mkOut (Ok tt)
      (mkWorld (closed_on i (ticks_now (board w)) (self w))
         (st (Buzzer.play (Buzzer.mk VOLUME_DUTY) (nth i MELODIES [])
                (st (lcd_winner (I2cLcd.mk LCD_ADDR LCD_COLS LCD_ROWS I2cLcd.MASK_BL)
                       (nth i TEAM_NAMES ""%string) (board w))))))
      (win_calls i (leds (self w))).
Proof.
  intros Hf (Hlcd & Hbz & _ & _) Hi.
  assert (Hn : (i <? length TEAM_NAMES)%nat = true) by (apply Nat.ltb_lt; exact Hi).
  assert (Hm : (i <? length MELODIES)%nat = true) by (apply Nat.ltb_lt; exact Hi).
  unfold Game._declare_winner.
  rewrite !bind_update, bind_ticks, bind_update, bind_get.
  erewrite bind_run by apply winner_leds_run. cbv beta zeta.
  rewrite Hn, Hm, bind_get.
  match goal with |- context [lcd_winner ?d] =>
    replace d with (I2cLcd.mk LCD_ADDR LCD_COLS LCD_ROWS I2cLcd.MASK_BL)
      by (symmetry; exact Hlcd) end.
  erewrite bind_run by (apply (out_lift _ _ _ _ (winner_emits i Hi)); exact Hf).
  cbv beta. rewrite bind_print.
  erewrite try_run; cycle 1.
  { rewrite bind_get.
    match goal with |- context [Buzzer.play ?z] =>
      replace z with (Buzzer.mk VOLUME_DUTY) by (symmetry; exact Hbz) end.
    apply (out_lift _ _ _ _ (emits_play _ _)).
    exact (emits_faults _ _ _ _ (winner_emits i Hi) Hf). }
  rewrite !prepend_out. reflexivity.
Qed.

(** ** Passes of the polling loop *)

Lemma bind_assoc {S A B C} (m : M S A) (f : A -> M S B) (k : B -> M S C) (s : S) :
  bind (bind m f) k s = bind m (fun a => bind (f a) k) s.
Proof.
  unfold bind. destruct (m s) as [[a|e] s1 l1]; simpl; [|reflexivity].
  destruct (f a s1) as [[b|e] s2 l2]; simpl; [|reflexivity].
  unfold prepend. simpl. now rewrite app_assoc.
Qed.

(** A pass that does not handle a reset goes straight to the timeout
    check. *)
Lemma loop_skips_reset (held : nat) (w : World) :
  reset_requested (self w) = false \/
  ticks_diff (ticks_now (board w)) (last_reset_handled (self w)) < RESET_COOLDOWN_MS ->
  Game.loop_iter held w = timeout_check w.
Proof.
  intros Hskip. unfold Game.loop_iter. rewrite bind_get.
  destruct (reset_requested (self w)) eqn:Hrr; cbv iota.
  - destruct Hskip as [Hf|Hlt]; [discriminate|].
    rewrite bind_assoc, bind_ticks, bind_assoc, bind_get.
    destruct (Z.leb_spec RESET_COOLDOWN_MS
                (ticks_diff (ticks_now (board w)) (last_reset_handled (self w))));
      [lia|].
    rewrite bind_ret. reflexivity.
  - rewrite bind_ret. reflexivity.
Qed.

Lemma timeout_check_idle (w : World) :
  round_open (self w) = true \/ winner_idx (self w) = None \/
  ticks_diff (ticks_now (board w)) (win_ts (self w)) < TIMEOUT_S * 1000 ->
  timeout_check w = lift (sleep_ms 10) w.
Proof.
  intros Hidle. unfold timeout_check. rewrite !bind_get.
  destruct (round_open (self w)) eqn:Hro.
  - cbn [negb andb]. rewrite bind_ret. reflexivity.
  - destruct (winner_idx (self w)) as [k|] eqn:Hwi.
    + rewrite bool_decide_eq_true_2 by discriminate. cbn [negb andb].
      rewrite bind_assoc, bind_ticks, bind_assoc, bind_get.
      destruct Hidle as [Hf|[Hf|Hlt]]; try discriminate.
      destruct (Z.leb_spec (TIMEOUT_S * 1000)
                  (ticks_diff (ticks_now (board w)) (win_ts (self w)))); [lia|].
      rewrite bind_ret. reflexivity.
    + rewrite bool_decide_eq_false_2 by (intros H; now apply H). cbn [negb andb].
      rewrite bind_ret. reflexivity.
Qed.

Lemma timeout_check_fires (w : World) (k : nat) :
  round_open (self w) = false -> winner_idx (self w) = Some k ->
  TIMEOUT_S * 1000 <= ticks_diff (ticks_now (board w)) (win_ts (self w)) ->
  timeout_check w = bind Game.reset_round (fun _ => lift (sleep_ms 10)) w.
Proof.
  intros Hro Hwi Hto. unfold timeout_check. rewrite !bind_get, Hro, Hwi.
  rewrite bool_decide_eq_true_2 by discriminate. cbn [negb andb].
  rewrite bind_assoc, bind_ticks, bind_assoc, bind_get.
  destruct (Z.leb_spec (TIMEOUT_S * 1000)
              (ticks_diff (ticks_now (board w)) (win_ts (self w)))); [|lia].
  reflexivity.
Qed.

(** A pass of the loop that finds no reset to handle (none requested, or
    the cooldown still running) and no timeout to act on (the round open,
    or no winner, or the winner declared less than [TIMEOUT_S] seconds
    ago) does nothing but pause for 10 ms: the game object is untouched,
    so a request held back by the cooldown stays pending, and the only
    device call is the pause. *)
Theorem loop_pass_without_work_only_sleeps (held : nat) (w : World) :
  reset_requested (self w) = false \/
  ticks_diff (ticks_now (board w)) (last_reset_handled (self w)) < RESET_COOLDOWN_MS ->
  round_open (self w) = true \/ winner_idx (self w) = None \/
  ticks_diff (ticks_now (board w)) (win_ts (self w)) < TIMEOUT_S * 1000 ->
  Game.loop_iter held w = lift (sleep_ms 10) w /\
  self (st (Game.loop_iter held w)) = self w /\
  evs (Game.loop_iter held w) = [SleepMs 10].
Proof.
  intros Hskip Hidle.
  assert (H : Game.loop_iter held w = lift (sleep_ms 10) w).
  { rewrite (loop_skips_reset held w Hskip). exact (timeout_check_idle w Hidle). }
  split; [exact H|]. rewrite H. split; [reflexivity|].
  unfold lift, sleep_ms, device. cbv zeta.
  destruct (faults (board w)) as [|[e|] rest]; reflexivity.
Qed.

Lemma loop_pass_without_work_only_sleeps_witness :
  reset_requested (self after_win) = false /\
  ticks_diff (ticks_now (board after_win)) (win_ts (self after_win)) < TIMEOUT_S * 1000 /\
  self (st (Game.loop_iter 0 after_win)) = self after_win.
Proof.
  assert (H1 : reset_requested (self after_win) = false) by reflexivity.
  assert (H2 : ticks_diff (ticks_now (board after_win)) (win_ts (self after_win))
               < TIMEOUT_S * 1000) by (vm_compute; reflexivity).
  split; [exact H1|]. split; [exact H2|].
  exact (proj1 (proj2 (loop_pass_without_work_only_sleeps 0 after_win
                         (or_introl H1) (or_intror (or_intror H2))))).
Defined.

(** The timeout.  A pass of the loop that has no reset to handle and
    finds the round closed with a winner declared at least [TIMEOUT_S]
    seconds ago resets the round: the game object is reopened whatever
    the devices do, and on a board without faults the pass returns after
    exactly the calls of one reset and its pause.  The pass that follows
    does nothing but pause, so the timeout fires once. *)
Theorem timeout_reopens_round_once (held held' : nat) (w : World) (k : nat) :
  reset_requested (self w) = false ->
  round_open (self w) = false -> winner_idx (self w) = Some k ->
  TIMEOUT_S * 1000 <= ticks_diff (ticks_now (board w)) (win_ts (self w)) ->
  let w1 := st (Game.loop_iter held w) in
  self w1 = reopened (self w) /\
  (faults (board w) = [] -> wf (self w) ->
     res (Game.loop_iter held w) = Ok tt /\
     evs (Game.loop_iter held w) = reset_calls (leds (self w)) ++ [SleepMs 10]) /\
  Game.loop_iter held' w1 = lift (sleep_ms 10) w1.
Proof.
  intros Hrr Hro Hwi Hto w1.
  assert (Hrun : Game.loop_iter held w
                 = bind Game.reset_round (fun _ => lift (sleep_ms 10)) w).
  { rewrite (loop_skips_reset held w (or_introl Hrr)).
    exact (timeout_check_fires w k Hro Hwi Hto). }
  assert (Hs : self w1 = reopened (self w)).
  { subst w1. rewrite Hrun. apply self_bind_split.
    - apply reset_round_self.
    - intros _ w' Hw'. exact Hw'. }
  split; [exact Hs|]. split.
  - intros Hf Hwf. rewrite Hrun.
    erewrite bind_run by (apply reset_round_out; assumption).
    erewrite out_lift; [|apply emits_sleep_ms|].
    + rewrite prepend_out. split; reflexivity.
    + apply (emits_faults _ _ _ _ (emits_play _ _)).
      exact (emits_faults _ _ _ _ ready_emits Hf).
  - rewrite loop_skips_reset by (left; rewrite Hs; exact Hrr).
    apply timeout_check_idle. left. now rewrite Hs.
Qed.

Lemma timeout_reopens_round_once_witness :
  round_open (self stale_win) = false /\
  winner_idx (self stale_win) = Some 2%nat /\
  TIMEOUT_S * 1000
    <= ticks_diff (ticks_now (board stale_win)) (win_ts (self stale_win)) /\
  round_open (self (st (Game.loop_iter 0 stale_win))) = true.
Proof.
  assert (H1 : reset_requested (self stale_win) = false) by reflexivity.
  assert (H2 : round_open (self stale_win) = false) by reflexivity.
  assert (H3 : winner_idx (self stale_win) = Some 2%nat) by reflexivity.
  assert (H4 : TIMEOUT_S * 1000
     <= ticks_diff (ticks_now (board stale_win)) (win_ts (self stale_win)))
    by (vm_compute; discriminate).
  split; [exact H2|]. split; [exact H3|]. split; [exact H4|].
  rewrite (proj1 (timeout_reopens_round_once 0 0 stale_win 2 H1 H2 H3 H4)).
  reflexivity.
Defined.

(** ** The calls of a reset and of a win, and what errors do to them *)

(** [reset_round] on a board without faults, for a game object as the
    constructor builds it: it returns, having made exactly these calls in
    this order: every LED pin written with the inactive level, the READY
    screen, the console line, the start chime.  The game object is left
    reopened and the board still without faults. *)
Theorem reset_round_calls_in_order (w : World) :
  faults (board w) = [] -> wf (self w) ->
  res (Game.reset_round w) = Ok tt /\
  evs (Game.reset_round w) = reset_calls (leds (self w)) /\
  self (st (Game.reset_round w)) = reopened (self w) /\
  faults (board (st (Game.reset_round w))) = [].
Proof.
  intros Hf Hwf. rewrite (reset_round_out w Hf Hwf).
  repeat split.
  apply (emits_faults _ _ _ _ (emits_play _ _)).
  exact (emits_faults _ _ _ _ ready_emits Hf).
Qed.

Lemma reset_round_calls_in_order_witness :
  faults (board after_win) = [] /\ wf (self after_win) /\
  res (Game.reset_round after_win) = Ok tt.
Proof.
  assert (Hf : faults (board after_win) = []) by reflexivity.
  assert (Hwf : wf (self after_win)) by (repeat split; reflexivity).
  split; [exact Hf|]. split; [exact Hwf|].
  exact (proj1 (reset_round_calls_in_order after_win Hf Hwf)).
Defined.

(** [_declare_winner] for contestant [i] on a board without faults: it
    returns, having made exactly these calls in this order: every LED pin
    written, pin [i] with the active level and the others with the
    inactive one, the winner's screen, the console line, the melody of
    contestant [i].  The game object is left closed on [i] with the tick
    of the call as the time of the win. *)
Theorem declare_winner_calls_in_order (i : nat) (w : World) :
  faults (board w) = [] -> wf (self w) -> (i < length BTN_PINS)%nat ->
  res (Game._declare_winner i w) = Ok tt /\
  evs (Game._declare_winner i w) = win_calls i (leds (self w)) /\
  self (st (Game._declare_winner i w)) = closed_on i (ticks_now (board w)) (self w) /\
  faults (board (st (Game._declare_winner i w))) = [].
Proof.
  intros Hf Hwf Hi. rewrite (declare_winner_out i w Hf Hwf Hi).
  repeat split.
  apply (emits_faults _ _ _ _ (emits_play _ _)).
  exact (emits_faults _ _ _ _ (winner_emits i Hi) Hf).
Qed.

Lemma declare_winner_calls_in_order_witness :
  faults (board power_on) = [] /\ wf (self power_on) /\
  (4 < length BTN_PINS)%nat /\
  evs (Game._declare_winner 4 power_on) = win_calls 4 (leds (self power_on)).
Proof.
  assert (Hf : faults (board power_on) = []) by reflexivity.
  assert (Hwf : wf (self power_on)) by (repeat split; reflexivity).
  assert (Hi : (4 < length BTN_PINS)%nat) by (vm_compute; lia).
  split; [exact Hf|]. split; [exact Hwf|]. split; [exact Hi|].
  exact (proj1 (proj2 (declare_winner_calls_in_order 4 power_on Hf Hwf Hi))).
Defined.

Lemma bind_lift {A B} (m : M Hw A) (k : A -> M World B) (w : World) :
  bind (lift m) k w
  = match res (m (board w)) with
    | Ok a => prepend (evs (m (board w))) (k a (mkWorld (self w) (st (m (board w)))))
    | Raise e => mkOut (Raise e) (mkWorld (self w) (st (m (board w)))) (evs (m (board w)))
    end.
Proof. reflexivity. Qed.

Lemma try_lift {w : World} (m : M Hw unit) (h : exn -> M World unit) :
  try_except (lift m) h w
  = match res (m (board w)) with
    | Ok _ => lift m w
    | Raise e =>
        if is_Exception e
        then prepend (evs (m (board w))) (h e (mkWorld (self w) (st (m (board w)))))
        else lift m w
    end.
Proof. reflexivity. Qed.

Lemma res_prepend {S A} (l : list Event) (o : Out S A) : res (prepend l o) = res o.
Proof. reflexivity. Qed.

Lemma evs_prepend {S A} (l : list Event) (o : Out S A) : evs (prepend l o) = l ++ evs o.
Proof. reflexivity. Qed.

Lemma res_lift {A} (m : M Hw A) (w : World) : res (lift m w) = res (m (board w)).
Proof. reflexivity. Qed.

Lemma evs_lift {A} (m : M Hw A) (w : World) : evs (lift m w) = evs (m (board w)).
Proof. reflexivity. Qed.

Lemma try_get_buzzer (k : Buzzer.t -> M Hw unit) (h : exn -> M World unit) (w : World) :
  try_except (bind (get buzzer) (fun bz => lift (k bz))) h w
  = try_except (lift (k (buzzer (self w)))) h w.
Proof. unfold try_except. rewrite bind_get. reflexivity. Qed.

(** What errors do to [_declare_winner], for contestant [i] and a game
    object as the constructor builds it.  The round is closed on [i] and
    the LEDs are written in every case.  An exception raised while the
    winner's screen is drawn leaves the callback at once: no console
    line, no melody.  Once the screen is drawn and the line printed, an
    exception of class [Exception] raised by the melody is caught: the
    callback prints one more line, which begins with [Buzzer error: ],
    and returns normally; a [KeyboardInterrupt] raised there is not
    caught. *)
Theorem declare_winner_error_paths (i : nat) (w : World) :
  wf (self w) -> (i < length BTN_PINS)%nat ->
  let name := nth i TEAM_NAMES ""%string in
  let shown := lcd_winner (I2cLcd.mk LCD_ADDR LCD_COLS LCD_ROWS I2cLcd.MASK_BL)
                          name (board w) in
  let played := Buzzer.play (Buzzer.mk VOLUME_DUTY) (nth i MELODIES []) (st shown) in
  let lit_calls := pin_writes (only i) (leds (self w)) in
  let o := Game._declare_winner i w in
  self (st o) = closed_on i (ticks_now (board w)) (self w) /\
  match res shown with
  | Raise e => res o = Raise e /\ evs o = lit_calls ++ evs shown
  | Ok _ =>
      match res played with
      | Ok _ =>
          res o = Ok tt /\
          evs o = lit_calls ++ evs shown ++ [Print ("WIN: " ++ name)] ++ evs played
      | Raise e =>
          if is_Exception e
          then res o = Ok tt /\
               exists text,
                 evs o = lit_calls ++ evs shown ++ [Print ("WIN: " ++ name)] ++
                         evs played ++ [Print ("Buzzer error: " ++ text)]
          else res o = Raise e /\
               evs o = lit_calls ++ evs shown ++ [Print ("WIN: " ++ name)] ++ evs played
      end
  end.
Proof.
  intros (Hlcd & Hbz & _ & _) Hi name shown played lit_calls o.
  split; [apply declare_winner_self|].
  assert (Hn : (i <? length TEAM_NAMES)%nat = true) by (apply Nat.ltb_lt; exact Hi).
  assert (Hm : (i <? length MELODIES)%nat = true) by (apply Nat.ltb_lt; exact Hi).
  assert (Ho : o = prepend lit_calls
    match res shown with
    | Ok _ =>
        prepend (evs shown) (prepend [Print ("WIN: " ++ name)]
          (try_except (lift (Buzzer.play (Buzzer.mk VOLUME_DUTY) (nth i MELODIES [])))
             (fun e => print ("Buzzer error: " ++ exn_name e))
             (mkWorld (closed_on i (ticks_now (board w)) (self w)) (st shown))))
    | Raise e =>
        mkOut (Raise e) (mkWorld (closed_on i (ticks_now (board w)) (self w)) (st shown))
              (evs shown)
    end).
  { subst o. unfold Game._declare_winner.
    rewrite !bind_update, bind_ticks, bind_update, bind_get.
    erewrite bind_run by apply winner_leds_run. cbv beta zeta.
    rewrite Hn, Hm, bind_get.
    match goal with |- context [lcd_winner ?d] =>
      replace d with (I2cLcd.mk LCD_ADDR LCD_COLS LCD_ROWS I2cLcd.MASK_BL)
        by (symmetry; exact Hlcd) end.
    rewrite bind_lift. cbn [self board]. fold name. fold shown.
    f_equal.
    destruct (res shown); [|reflexivity].
    f_equal. rewrite bind_print. f_equal.
    rewrite try_get_buzzer.
    match goal with |- context [Buzzer.play ?z] =>
      replace z with (Buzzer.mk VOLUME_DUTY) by (symmetry; exact Hbz) end.
    reflexivity. }
  rewrite Ho. destruct (res shown) as [[]|e].
  - rewrite !res_prepend, !evs_prepend, try_lift.
    cbn [self board]. fold played.
    destruct (res played) as [[]|e] eqn:Hp; cbv iota.
    + rewrite res_lift, evs_lift. split; [exact Hp|reflexivity].
    + destruct (is_Exception e); cbv iota.
      * rewrite res_prepend, evs_prepend.
        split; [reflexivity | exists (exn_name e); reflexivity].
      * rewrite res_lift, evs_lift. split; [exact Hp|reflexivity].
  - rewrite res_prepend, evs_prepend. split; reflexivity.
Qed.

(** Contestant 3 wins on a board whose melody fails at its first call:
    the callback returns normally and its last console line reports the
    buzzer error. *)
Lemma declare_winner_error_paths_witness :
  wf (self buzzer_fails) /\ (2 < length BTN_PINS)%nat /\
  res (Game._declare_winner 2 buzzer_fails) = Ok tt /\
  exists text,
    last (evs (Game._declare_winner 2 buzzer_fails))
    = Some (Print ("Buzzer error: " ++ text)).
Proof.
  assert (Hwf : wf (self buzzer_fails)) by (repeat split; reflexivity).
  assert (Hi : (2 < length BTN_PINS)%nat) by (vm_compute; lia).
  split; [exact Hwf|]. split; [exact Hi|].
  pose proof (declare_winner_error_paths 2 buzzer_fails Hwf Hi) as H.
  cbv zeta in H. apply proj2 in H.
  assert (Hs : res (lcd_winner (I2cLcd.mk LCD_ADDR LCD_COLS LCD_ROWS I2cLcd.MASK_BL)
                      (nth 2 TEAM_NAMES ""%string) (board buzzer_fails)) = Ok tt)
    by (vm_compute; reflexivity).
  assert (Hp : res (Buzzer.play (Buzzer.mk VOLUME_DUTY) (nth 2 MELODIES [])
                 (st (lcd_winner (I2cLcd.mk LCD_ADDR LCD_COLS LCD_ROWS I2cLcd.MASK_BL)
                        (nth 2 TEAM_NAMES ""%string) (board buzzer_fails))))
               = Raise OSError)
    by (vm_compute; reflexivity).
  rewrite Hs, Hp in H. cbv iota in H. change (is_Exception OSError) with true in H.
  cbv iota in H. destruct H as [Hr [text He]].
  split; [exact Hr|]. exists text.
  rewrite He, !app_assoc. apply last_snoc.
Defined.

(** ** The constructor and the states that follow it *)



(** ** Callbacks served inside the passes of the loop *)

Lemma stable_for_each {A} (P : BuzzerGame -> Prop) (l : list A) (body : A -> M World unit) :
  (forall x, stable P (body x)) -> stable P (for_each l body).
Proof.
  intros Hb. induction l as [|x l IH]; simpl.
  - apply stable_ret.
  - apply stable_bind; [apply Hb | intros _; exact IH].
Qed.

Lemma stable_led_off (P : BuzzerGame -> Prop) (i : nat) :
  (forall g g', loop_store g g' -> P g -> P g') -> stable P (Game._led_off i).
Proof.
  intros H w Hw. unfold Game._led_off, Game.pin_value.
  destruct (leds (self w) !! i) as [p|] eqn:Hp; simpl; [|exact Hw].
  exact (H _ _ (store_led_off i p (self w) Hp) Hw).
Qed.

(** A pass of the loop changes the game object by these stores only,
    whatever the board does. *)
Lemma stable_loop_iter_stores (P : BuzzerGame -> Prop) (held : nat) :
  (forall g g', loop_store g g' -> P g -> P g') -> stable P (Game.loop_iter held).
Proof.
  intros H.
  unfold Game.loop_iter, Game.reset_round, Game._leds_all_off, Game._play_start_chime.
  repeat first
    [ stable_step
    | apply stable_update; intros g Hg; refine (H _ _ _ Hg); constructor
    | apply stable_for_each; intros ?; apply stable_led_off; exact H ].
Qed.

Lemma interleaved_loop_iter (held : nat) (w : World) :
  interleaved (self w) -> interleaved (self (st (Game.loop_iter held w))).
Proof.
  apply (stable_loop_iter_stores interleaved).
  intros g g' Hs Hg. exact (il_store g g' Hg Hs).
Qed.

(** The states reached with callbacks and passes taken whole are among
    the interleaved ones. *)
Lemma reachable_interleaved (w : World) : reachable w -> interleaved (self w).
Proof.
  induction 1 as [h w Hb | w w' _ IH Hstep].
  - exact (il_boot h w Hb).
  - destruct Hstep as [i w Hi | w | held w | us w].
    + destruct w as [g b]. now apply il_press.
    + destruct w as [g b]. now apply il_reset_edge.
    + now apply interleaved_loop_iter.
    + exact IH.
Qed.

Lemma interleaved_inv (P : BuzzerGame -> Prop) :
  (forall h w, res (Game.__init__ h) = Ok w -> P (self w)) ->
  (forall g i now, P g -> P (set_last_edge (<[i := now]> (last_edge g)) g)) ->
  (forall g i now, (i < length BTN_PINS)%nat -> P g -> P (closed_on i now g)) ->
  (forall g now, P g -> P (set_last_r now g)) ->
  (forall g, P g -> P (set_reset_requested true g)) ->
  (forall g g', loop_store g g' -> P g -> P g') ->
  forall g, interleaved g -> P g.
Proof.
  intros Hboot He Hc Hr Hq Hs g Hg.
  induction Hg as [h w Hb | i b g Hi _ IH | b g _ IH | g g' _ IH Hst].
  - exact (Hboot h w Hb).
  - apply (stable_irq_btn P i); [intros; now apply He | intros; now apply Hc | exact IH].
  - apply (stable_irq_r P); [intros; now apply Hr | intros; now apply Hq | exact IH].
  - exact (Hs g g' Hst IH).
Qed.

Lemma lit_not_dark (p : Pin) : lit p -> dark p -> False.
Proof. unfold lit, dark. intros -> H. revert H. vm_compute. discriminate. Qed.

Lemma map_gpio_insert (l : list Pin) (k : nat) (p : Pin) (v : Z) :
  l !! k = Some p -> map gpio (<[k := mkPin (gpio p) v]> l) = map gpio l.
Proof.
  revert k. induction l as [|q l IH]; intros [|k] Hk; try discriminate; simpl in *.
  - injection Hk as ->. reflexivity.
  - f_equal. now apply IH.
Qed.

(** With callbacks served anywhere inside the passes of the loop, the
    game object never has two LEDs on at a point of the loop or between
    two callbacks: at most one LED carries the active level, every other
    one the inactive level.  The LED pins stay the configured ones, and
    a recorded winner is one of the contestants.  This holds under any
    faults of the display and the buzzer.  The winner's LED itself need
    not be on: the loop may write it off after the callback that lit
    it. *)
Theorem at_most_one_led_lit (g : BuzzerGame) :
  interleaved g ->
  at_most_one_lit (leds g) /\
  Forall (fun p => lit p \/ dark p) (leds g) /\
  map gpio (leds g) = LED_PINS /\
  (forall i, winner_idx g = Some i -> (i < length BTN_PINS)%nat).
Proof.
  revert g. apply interleaved_inv.
  - intros h w Hb. rewrite (boot_self h w Hb). simpl.
    assert (Hd : Forall dark (map (fun p => mkPin p Game.OFF) LED_PINS))
      by (repeat constructor).
    split; [|split; [|split; [reflexivity | discriminate]]].
    + intros j k p q Hp _ Lp _. exfalso.
      exact (lit_not_dark p Lp (proj1 (Forall_lookup _ _) Hd j p Hp)).
    + eapply Forall_impl; [exact Hd | auto].
  - intros g i now H. exact H.
  - intros g i now Hi (_ & _ & Hg & _). simpl.
    split; [|split; [|split]].
    + intros j k p q Hp Hq Lp Lq.
      apply relevel_lookup in Hp, Hq. unfold lit in Lp, Lq.
      rewrite Hp in Lp. rewrite Hq in Lq. unfold only in Lp, Lq.
      destruct (Nat.eqb_spec j i); [|revert Lp; vm_compute; discriminate].
      destruct (Nat.eqb_spec k i); [|revert Lq; vm_compute; discriminate].
      congruence.
    + apply Forall_lookup. intros j p Hp. apply relevel_lookup in Hp.
      unfold lit, dark. rewrite Hp. unfold only. destruct (j =? i)%nat; auto.
    + now rewrite relevel_gpio.
    + intros i' Hi'. injection Hi' as <-. exact Hi.
  - intros g now H. exact H.
  - intros g H. exact H.
  - intros g g' Hs (H1 & Hf & Hg & Hw).
    destruct Hs as [now g | g | g | g | k p g Hk]; simpl;
      try (repeat split; solve [assumption | discriminate]).
    split; [|split; [|split; [|exact Hw]]].
    + intros j k' p' q' Hp Hq Lp Lq.
      apply list_lookup_insert_Some in Hp, Hq.
      destruct Hp as [(_ & <- & _)|[_ Hp]];
        [exfalso; exact (lit_not_dark _ Lp eq_refl)|].
      destruct Hq as [(_ & <- & _)|[_ Hq]];
        [exfalso; exact (lit_not_dark _ Lq eq_refl)|].
      exact (H1 j k' p' q' Hp Hq Lp Lq).
    + apply Forall_lookup. intros j p' Hp.
      apply list_lookup_insert_Some in Hp.
      destruct Hp as [(_ & <- & _)|[_ Hp]]; [right; reflexivity|].
      exact (proj1 (Forall_lookup _ _) Hf j p' Hp).
    + rewrite map_gpio_insert by exact Hk. exact Hg.
Qed.

(** The state a press served inside [reset_round] leaves: the round is
    closed on contestant 6 and every LED is dark. *)
Lemma at_most_one_led_lit_witness :
  interleaved raced_win /\
  round_open raced_win = false /\ winner_idx raced_win = Some 5%nat /\
  Forall dark (leds raced_win) /\
  at_most_one_lit (leds raced_win) /\ map gpio (leds raced_win) = LED_PINS.
Proof.
  assert (Hr : interleaved raced_win).
  { unfold raced_win. cbv zeta.
    assert (Hoff : forall k g, interleaved g -> interleaved (led_off k g)).
    { intros k g Hi. unfold led_off.
      destruct (leds g !! k) as [p|] eqn:Hp; [|exact Hi].
      exact (il_store _ _ Hi (store_led_off k p g Hp)). }
    do 4 apply Hoff.
    apply il_press; [vm_compute; lia|].
    do 2 apply Hoff.
    eapply il_store; [|apply store_winner_idx].
    eapply il_store; [|apply store_round_open].
    apply (il_press 2 (board power_on) (self power_on)); [vm_compute; lia|].
    exact (il_boot _ _ boot_power_on). }
  split; [exact Hr|].
  split; [vm_compute; reflexivity|]. split; [vm_compute; reflexivity|].
  split; [vm_compute; repeat constructor|].
  pose proof (at_most_one_led_lit raced_win Hr) as (H1 & _ & H3 & _).
  split; [exact H1 | exact H3].
Defined.



(** ** The display driver on arbitrary values *)

Lemma high_bits_of_nibble (n : Z) : Z.land (Z.shiftl n 4) 0xF0 = 16 * (n mod 16).
Proof.
  change 0xF0 with (Z.shiftl 15 4). rewrite <- Z.shiftl_land.
  change 15 with (Z.ones 4). rewrite Z.land_ones by lia.
  rewrite Z.shiftl_mul_pow2 by lia. change (2 ^ 4) with 16. lia.
Qed.

Lemma send_nibble_emits (lcd : I2cLcd.t) (n rs : Z) :
  I2cLcd.bl lcd = I2cLcd.MASK_BL ->
  emits (I2cLcd._send_nibble lcd n rs) tt
        (strobe (I2cLcd.addr lcd) (n mod 16) (if rs =? 0 then 0 else 1)).
Proof.
  intros Hbl. destruct lcd as [a cols rows bl]. simpl in *. subst bl.
  unfold I2cLcd._send_nibble. cbv zeta. rewrite high_bits_of_nibble.
  assert (Hk : 0 <= n mod 16 < Z.of_nat 16) by (apply Z.mod_pos_bound; lia).
  revert Hk. generalize (n mod 16). apply (below_cases 16). intros k Hk.
  apply emits_by_run. intros c f d.
  destruct (rs =? 0);
    do 16 (destruct k as [|k]; [vm_compute; auto|]); lia.
Qed.

Lemma nibbles_of_byte (b : Z) :
  Z.shiftr b 4 mod 16 = (b mod 256) / 16 /\ Z.land b 0x0F mod 16 = (b mod 256) mod 16.
Proof.
  rewrite Z.shiftr_div_pow2 by lia. change (2 ^ 4) with 16.
  change 0x0F with (Z.ones 4). rewrite Z.land_ones by lia. change (2 ^ 4) with 16.
  split.
  - Z.to_euclidean_division_equations. lia.
  - Z.to_euclidean_division_equations. lia.
Qed.

(** [_send_byte] puts the low eight bits of any integer on the bus, high
    nibble first, and never a value that [bytes([..])] refuses: the
    nibble is masked with 0xF0 before the control bits are added.  A
    character code above 255, or a negative value, is sent as its
    residue modulo 256; any [rs] other than 0 selects the data
    register. *)
Theorem send_byte_sends_low_eight_bits (lcd : I2cLcd.t) (b rs : Z) :
  I2cLcd.bl lcd = I2cLcd.MASK_BL ->
  emits (I2cLcd._send_byte lcd b rs) tt
        (two_nibbles (I2cLcd.addr lcd) (b mod 256) (if rs =? 0 then 0 else 1)).
Proof.
  intros Hbl. unfold I2cLcd._send_byte, two_nibbles.
  destruct (nibbles_of_byte b) as [Hh Hl]. rewrite <- Hh, <- Hl.
  apply (emits_bind _ _ tt tt); apply send_nibble_emits; exact Hbl.
Qed.

Lemma send_byte_sends_low_eight_bits_witness :
  I2cLcd.bl (I2cLcd.mk LCD_ADDR LCD_COLS LCD_ROWS I2cLcd.MASK_BL) = I2cLcd.MASK_BL /\
  emits (I2cLcd._send_byte (I2cLcd.mk LCD_ADDR LCD_COLS LCD_ROWS I2cLcd.MASK_BL) 321 7)
        tt (two_nibbles LCD_ADDR 65 1).
Proof.
  split; [reflexivity|].
  exact (send_byte_sends_low_eight_bits
           (I2cLcd.mk LCD_ADDR LCD_COLS LCD_ROWS I2cLcd.MASK_BL) 321 7 eq_refl).
Defined.

Lemma ord_bounds (c : ascii) : 0 <= ord c < 256.
Proof.
  unfold ord. pose proof (N_ascii_bounded c) as H. lia.
Qed.

Lemma list_ascii_app (s1 s2 : string) :
  list_ascii_of_string (s1 ++ s2) = list_ascii_of_string s1 ++ list_ascii_of_string s2.
Proof. induction s1 as [|c s1 IH]; [reflexivity|]. simpl. now rewrite IH. Qed.

Lemma text_app (a : Z) (s1 s2 : string) :
  text a (s1 ++ s2) = text a s1 ++ text a s2.
Proof. unfold text. now rewrite list_ascii_app, map_app, concat_app. Qed.

Lemma text_length (a : Z) (s : string) :
  length (text a s) = (8 * String.length s)%nat.
Proof.
  unfold text. induction s as [|c s IH]; [reflexivity|].
  cbn [list_ascii_of_string map concat String.length]. rewrite length_app, IH.
  unfold two_nibbles, strobe. simpl length. lia.
Qed.

(** [write] sends the characters of any string in order, each as one
    data byte: eight bus and delay calls per character, none for the
    empty string, and the calls for a concatenation are the calls for
    its parts one after the other. *)
Theorem write_sends_each_character (lcd : I2cLcd.t) (s : string) :
  I2cLcd.bl lcd = I2cLcd.MASK_BL ->
  emits (I2cLcd.write lcd s) tt (text (I2cLcd.addr lcd) s) /\
  length (text (I2cLcd.addr lcd) s) = (8 * String.length s)%nat /\
  (forall s1 s2, s = (s1 ++ s2)%string ->
     text (I2cLcd.addr lcd) s = text (I2cLcd.addr lcd) s1 ++ text (I2cLcd.addr lcd) s2).
Proof.
  intros Hbl. split; [|split].
  - unfold I2cLcd.write, text. induction s as [|c s IH].
    + apply emits_ret.
    + cbn [list_ascii_of_string for_each map concat].
      apply (emits_bind _ _ tt tt); [|exact IH].
      unfold I2cLcd.write_char. apply send_byte_emits; auto using ord_bounds.
  - apply text_length.
  - intros s1 s2 ->. apply text_app.
Qed.

Lemma write_sends_each_character_witness :
  I2cLcd.bl (I2cLcd.mk LCD_ADDR LCD_COLS LCD_ROWS I2cLcd.MASK_BL) = I2cLcd.MASK_BL /\
  emits (I2cLcd.write (I2cLcd.mk LCD_ADDR LCD_COLS LCD_ROWS I2cLcd.MASK_BL) "READY")
        tt (text LCD_ADDR "READY").
Proof.
  split; [reflexivity|].
  exact (proj1 (write_sends_each_character
                  (I2cLcd.mk LCD_ADDR LCD_COLS LCD_ROWS I2cLcd.MASK_BL) "READY" eq_refl)).
Defined.

(** [set_cursor] with a row index of 4 or more raises [IndexError]
    before anything is sent, whatever the board does: the table of row
    offsets has four entries. *)
Theorem set_cursor_row_out_of_range (lcd : I2cLcd.t) (col : Z) (row : nat) (h : Hw) :
  (4 <= row)%nat ->
  I2cLcd.set_cursor lcd col row h = mkOut (Raise IndexError) h [].
Proof.
  intros Hrow. unfold I2cLcd.set_cursor. cbv zeta.
  rewrite lookup_ge_None_2 by (simpl; lia). reflexivity.
Qed.

Lemma set_cursor_row_out_of_range_witness :
  (4 <= 4)%nat /\
  res (I2cLcd.set_cursor (I2cLcd.mk LCD_ADDR LCD_COLS LCD_ROWS I2cLcd.MASK_BL) 0 4
         (mkHw 0 0 0 [])) = Raise IndexError.
Proof.
  split; [lia|].
  rewrite (set_cursor_row_out_of_range
             (I2cLcd.mk LCD_ADDR LCD_COLS LCD_ROWS I2cLcd.MASK_BL) 0 4 (mkHw 0 0 0 []));
    [reflexivity|lia].
Defined.

Lemma lor_0x80 (x : Z) : 0 <= x < 128 -> Z.lor 0x80 x = 128 + x.
Proof.
  intros Hx. rewrite <- Z.add_nocarry_lor; [reflexivity|].
  apply Z.bits_inj'. intros n Hn. rewrite Z.land_spec, Z.bits_0.
  destruct (Z.eq_dec n 7) as [->|Hne].
  - rewrite andb_false_iff. right.
    apply Z.bits_above_log2; [lia|].
    destruct (Z.eq_dec x 0) as [->|]; [reflexivity|].
    apply Z.log2_lt_pow2; lia.
  - rewrite andb_false_iff. left.
    change 0x80 with (2 ^ 7). apply Z.pow2_bits_false. lia.
Qed.

(** On a display of 16 columns, [set_cursor] for a row below 4 and a
    column below 16 sends the one command byte 0x80 plus the row's
    offset plus the column, where the offsets of rows 0 to 3 are 0, 64,
    16 and 80.  The number of rows of the display is not consulted: rows
    2 and 3 are addressed as on a four-row display. *)
Theorem set_cursor_addresses (lcd : I2cLcd.t) (col : Z) (row : nat) :
  I2cLcd.bl lcd = I2cLcd.MASK_BL -> I2cLcd.cols lcd = 16 ->
  (row < 4)%nat -> 0 <= col < 16 ->
  emits (I2cLcd.set_cursor lcd col row) tt
        (two_nibbles (I2cLcd.addr lcd)
           (128 + nth row [0; 64; 16; 80] 0 + col) 0).
Proof.
  intros Hbl Hcols Hrow Hcol. unfold I2cLcd.set_cursor. cbv zeta. rewrite Hcols.
  assert (Hoff : [0x00; 0x40; 0x00 + 16; 0x40 + 16] !! row
                 = Some (nth row [0; 64; 16; 80] 0)
                 /\ 0 <= nth row [0; 64; 16; 80] 0 <= 80).
  { do 4 (destruct row as [|row]; [simpl; split; [reflexivity|lia]|]). lia. }
  destruct Hoff as [-> Hb]. rewrite lor_0x80 by lia.
  pose proof (command_emits lcd (128 + (nth row [0; 64; 16; 80] 0 + col)) Hbl) as H.
  destruct (decide (128 + (nth row [0; 64; 16; 80] 0 + col) = 1 \/
                    128 + (nth row [0; 64; 16; 80] 0 + col) = 2)) as [[?|?]|_];
    [lia|lia|].
  rewrite app_nil_r in H. rewrite Z.add_assoc in H |- *. apply H. lia.
Qed.

Lemma set_cursor_addresses_witness :
  emits (I2cLcd.set_cursor (I2cLcd.mk LCD_ADDR LCD_COLS LCD_ROWS I2cLcd.MASK_BL) 0 1)
        tt (two_nibbles LCD_ADDR 0xC0 0).
Proof.
  exact (set_cursor_addresses (I2cLcd.mk LCD_ADDR LCD_COLS LCD_ROWS I2cLcd.MASK_BL)
           0 1 eq_refl eq_refl ltac:(lia) ltac:(lia)).
Defined.

(** ** The buzzer constructor *)

(** Whenever the buzzer constructor returns, the volume it keeps is the
    requested one clamped to 0..65535, the only device call it made set
    the duty to zero, and the output is silent. *)
Theorem buzzer_volume_clamped (vol : Z) (h : Hw) (bz : Buzzer.t) :
  res (Buzzer.__init__ vol h) = Ok bz ->
  0 <= Buzzer.volume bz <= 65535 /\
  (0 <= vol <= 65535 -> Buzzer.volume bz = vol) /\
  (vol < 0 -> Buzzer.volume bz = 0) /\
  (65535 < vol -> Buzzer.volume bz = 65535) /\
  evs (Buzzer.__init__ vol h) = [PwmDuty 0] /\
  pwm_duty (st (Buzzer.__init__ vol h)) = 0.
Proof.
  intros Hr. pose proof (buzzer_init_returns vol h bz Hr) as ->.
  cbn [Buzzer.volume].
  split; [lia|]. split; [lia|]. split; [lia|]. split; [lia|].
  revert Hr. unfold Buzzer.__init__, bind, pwm_duty_u16, device, ret.
  destruct (faults h) as [|[e|] rest]; simpl; intros Hr; try discriminate; auto.
Qed.

Lemma buzzer_volume_clamped_witness :
  res (Buzzer.__init__ 70000 (mkHw 0 0 0 [])) = Ok (Buzzer.mk 65535) /\
  Buzzer.volume (Buzzer.mk 65535) = 65535.
Proof.
  assert (Hr : res (Buzzer.__init__ 70000 (mkHw 0 0 0 [])) = Ok (Buzzer.mk 65535))
    by reflexivity.
  split; [exact Hr|].
  apply (proj1 (proj2 (proj2 (proj2
           (buzzer_volume_clamped 70000 (mkHw 0 0 0 []) (Buzzer.mk 65535) Hr))))).
  lia.
Defined.

(** ** More on centring *)

Lemma substring0_all (s : string) : substring 0 (String.length s) s = s.
Proof. induction s as [|c s IH]; [reflexivity|]. simpl. now rewrite IH. Qed.

Lemma center_len (text : string) (width : Z) :
  0 <= width -> len (center text width) = width.
Proof.
  intros Hw. unfold center, len.
  destruct (Z.leb_spec width (Z.of_nat (String.length text))) as [Hle|Hlt].
  - unfold slice_to. destruct (Z.leb_spec 0 width) as [_|?]; [|lia].
    rewrite length_substring0. lia.
  - rewrite !str_mul_space, !length_append, !length_spaces.
    assert (0 <= (width - Z.of_nat (String.length text)) / 2) by (apply Z.div_pos; lia).
    assert (2 * ((width - Z.of_nat (String.length text)) / 2)
            <= width - Z.of_nat (String.length text)) by (apply Z.mul_div_le; lia).
    lia.
Qed.

(** Centring is idempotent: a text already centred (or cut) to a width
    is returned unchanged when centred to that width again. *)
Theorem center_idempotent (text : string) (width : Z) :
  0 <= width -> center (center text width) width = center text width.
Proof.
  intros Hw. pose proof (center_len text width Hw) as Hl.
  unfold center at 1. rewrite Hl, Z.leb_refl.
  unfold slice_to. destruct (Z.leb_spec 0 width) as [_|?]; [|lia].
  unfold len in Hl.
  replace (Z.to_nat width) with (String.length (center text width)) by lia.
  apply substring0_all.
Qed.

Lemma center_idempotent_witness :
  0 <= 16 /\
  center (center "Wait/Reset to play" 16) 16 = center "Wait/Reset to play" 16.
Proof. split; [lia|]. apply center_idempotent. lia. Defined.

(** With a negative width [center] does not pad: the test
    [len(text) >= width] always holds, and the slice [text[:width]]
    drops the last [-width] characters of the text (all of them when the
    text is shorter than that). *)
Theorem center_negative_width (text : string) (width : Z) :
  width < 0 ->
  center text width = substring 0 (Z.to_nat (len text + width)) text /\
  len (center text width) = Z.max 0 (len text + width) /\
  exists rest, text = (center text width ++ rest)%string.
Proof.
  intros Hw. unfold center.
  destruct (Z.leb_spec width (len text)) as [_|Hlt]; [|unfold len in Hlt; lia].
  unfold slice_to. destruct (Z.leb_spec 0 width) as [?|_]; [lia|].
  split; [reflexivity|]. split.
  - unfold len. rewrite length_substring0. unfold len. lia.
  - apply substring0_prefix.
Qed.

Lemma center_negative_width_witness :
  -2 < 0 /\ center "READY" (-2) = "REA"%string.
Proof.
  split; [lia|].
  rewrite (proj1 (center_negative_width "READY" (-2) ltac:(lia))). reflexivity.
Defined.

(** ** How long the calls block *)

Lemma takes_by_run (m : M Hw unit) (us : Z) :
  (forall c f d, res (m (mkHw c f d [])) = Ok tt /\
                 faults (st (m (mkHw c f d []))) = [] /\
                 clock_us (st (m (mkHw c f d []))) = c + us) ->
  takes m us.
Proof. intros H [c f d fs] Hfs; simpl in Hfs; subst fs. apply H. Qed.

Lemma takes_bind (m k : M Hw unit) (a b : Z) :
  takes m a -> takes k b -> takes (bind m (fun _ => k)) (a + b).
Proof.
  intros Hm Hk h Hh. destruct (Hm h Hh) as (Hr & Hf & Hc).
  destruct (Hk _ Hf) as (Hr' & Hf' & Hc').
  unfold bind. rewrite Hr. simpl. rewrite Hc', Hc. repeat split; auto. lia.
Qed.

Lemma takes_ret : takes (ret tt) 0.
Proof. intros h Hh. simpl. repeat split; auto. lia. Qed.

Lemma takes_eq (m : M Hw unit) (a b : Z) : takes m a -> a = b -> takes m b.
Proof. now intros H <-. Qed.

Lemma takes_sleep_ms (ms : Z) : 0 <= ms -> takes (sleep_ms ms) (1000 * ms).
Proof.
  intros Hms h Hh. unfold sleep_ms, device. rewrite Hh. simpl.
  repeat split; auto. lia.
Qed.

Lemma takes_pwm_freq (f : Z) : takes (pwm_freq f) 0.
Proof. intros h Hh. unfold pwm_freq, device. rewrite Hh. simpl. repeat split; auto. lia. Qed.

Lemma takes_pwm_duty (d : Z) : takes (pwm_duty_u16 d) 0.
Proof. intros h Hh. unfold pwm_duty_u16, device. rewrite Hh. simpl. repeat split; auto. lia. Qed.

Lemma takes_silence (bz : Buzzer.t) (ms : Z) :
  0 <= ms -> takes (Buzzer.silence bz ms) (1000 * ms).
Proof.
  intros Hms. unfold Buzzer.silence.
  apply (takes_eq _ (0 + 1000 * ms)); [|lia].
  apply takes_bind; [apply takes_pwm_duty | now apply takes_sleep_ms].
Qed.

Lemma takes_tone (bz : Buzzer.t) (f ms : Z) :
  0 <= ms -> takes (Buzzer.tone bz f ms) (1000 * ms).
Proof.
  intros Hms. unfold Buzzer.tone. destruct (f <=? 0).
  - now apply takes_silence.
  - apply (takes_eq _ (0 + (0 + (1000 * ms + 0)))); [|lia].
    apply takes_bind; [apply takes_pwm_freq|].
    apply takes_bind; [apply takes_pwm_duty|].
    apply takes_bind; [now apply takes_sleep_ms | apply takes_pwm_duty].
Qed.

Lemma takes_play (bz : Buzzer.t) (seq : Melody) :
  Forall (fun e => 0 <= e.1.2 /\ 0 <= e.2) seq ->
  takes (Buzzer.play bz seq) (1000 * play_ms seq).
Proof.
  unfold Buzzer.play. induction 1 as [|[[f d] g] seq [Hd Hg] _ IH].
  - apply takes_ret.
  - cbn [for_each play_ms fold_right fst snd] in *.
    apply (takes_eq _ ((1000 * d + 1000 * g) + 1000 * play_ms seq));
      [|unfold play_ms; lia].
    apply takes_bind; [|exact IH].
    apply takes_bind; [now apply takes_tone|].
    destruct (Z.eqb_spec g 0) as [->|_]; [apply takes_ret | now apply takes_silence].
Qed.

Lemma takes_i2c (a v : Z) : takes (i2c_writeto a v) 0.
Proof.
  intros h Hh. unfold i2c_writeto, device. rewrite Hh. simpl. repeat split; auto. lia.
Qed.

Lemma takes_sleep_us (us : Z) : 0 <= us -> takes (sleep_us us) us.
Proof.
  intros Hus h Hh. unfold sleep_us, device. rewrite Hh. simpl. repeat split; auto. lia.
Qed.

Lemma takes_write_byte (lcd : I2cLcd.t) (v : Z) :
  (0 <=? Z.lor v (I2cLcd.bl lcd)) && (Z.lor v (I2cLcd.bl lcd) <? 256) = true ->
  takes (I2cLcd._write_byte lcd v) 0.
Proof.
  intros Hv. unfold I2cLcd._write_byte. cbv zeta. rewrite Hv. apply takes_i2c.
Qed.

Lemma takes_pulse_e (lcd : I2cLcd.t) (data : Z) :
  (0 <=? Z.lor (Z.lor data I2cLcd.MASK_E) (I2cLcd.bl lcd))
  && (Z.lor (Z.lor data I2cLcd.MASK_E) (I2cLcd.bl lcd) <? 256) = true ->
  (0 <=? Z.lor (Z.land data (Z.lnot I2cLcd.MASK_E)) (I2cLcd.bl lcd))
  && (Z.lor (Z.land data (Z.lnot I2cLcd.MASK_E)) (I2cLcd.bl lcd) <? 256) = true ->
  takes (I2cLcd._pulse_e lcd data) 51.
Proof.
  intros H1 H2. unfold I2cLcd._pulse_e.
  apply (takes_eq _ (0 + (1 + (0 + 50)))); [|lia].
  apply takes_bind; [now apply takes_write_byte|].
  apply takes_bind; [apply takes_sleep_us; lia|].
  apply takes_bind; [now apply takes_write_byte|].
  apply takes_sleep_us; lia.
Qed.

Lemma takes_send_nibble (lcd : I2cLcd.t) (n rs : Z) :
  I2cLcd.bl lcd = I2cLcd.MASK_BL -> takes (I2cLcd._send_nibble lcd n rs) 51.
Proof.
  intros Hbl. unfold I2cLcd._send_nibble. cbv zeta. rewrite high_bits_of_nibble.
  assert (Hk : 0 <= n mod 16 < Z.of_nat 16) by (apply Z.mod_pos_bound; lia).
  revert Hk. generalize (n mod 16). apply (below_cases 16). intros k Hk.
  apply takes_pulse_e; rewrite Hbl;
    destruct (rs =? 0);
    do 16 (destruct k as [|k]; [vm_compute; reflexivity|]); lia.
Qed.

Lemma takes_send_byte (lcd : I2cLcd.t) (b rs : Z) :
  I2cLcd.bl lcd = I2cLcd.MASK_BL -> takes (I2cLcd._send_byte lcd b rs) 102.
Proof.
  intros Hbl. unfold I2cLcd._send_byte.
  apply (takes_bind _ _ 51 51); now apply takes_send_nibble.
Qed.

Lemma high_bit_cmd (x : Z) :
  0 <= x < 128 -> (Z.lor 128 x =? 1) || (Z.lor 128 x =? 2) = false.
Proof.
  intros Hx. rewrite (lor_0x80 x Hx).
  destruct (Z.eqb_spec (128 + x) 1); [lia|]. destruct (Z.eqb_spec (128 + x) 2); [lia|].
  reflexivity.
Qed.

Lemma takes_command (lcd : I2cLcd.t) (b : Z) :
  I2cLcd.bl lcd = I2cLcd.MASK_BL ->
  takes (I2cLcd.command lcd b) (if (b =? 1) || (b =? 2) then 2102 else 102).
Proof.
  intros Hbl. unfold I2cLcd.command.
  destruct ((b =? 1) || (b =? 2)).
  - apply (takes_bind _ _ 102 2000); [now apply takes_send_byte|].
    apply (takes_sleep_ms 2). lia.
  - apply (takes_bind _ _ 102 0); [now apply takes_send_byte | apply takes_ret].
Qed.

Lemma takes_write (lcd : I2cLcd.t) (s : string) :
  I2cLcd.bl lcd = I2cLcd.MASK_BL -> takes (I2cLcd.write lcd s) (102 * len s).
Proof.
  intros Hbl. unfold I2cLcd.write, len. induction s as [|c s IH].
  - apply takes_ret.
  - cbn [list_ascii_of_string for_each String.length].
    apply (takes_eq _ (102 + 102 * Z.of_nat (String.length s))); [|lia].
    apply takes_bind; [|exact IH]. now apply takes_send_byte.
Qed.

Lemma takes_set_cursor (lcd : I2cLcd.t) (col : Z) (row : nat) :
  I2cLcd.bl lcd = I2cLcd.MASK_BL -> (row < 2)%nat -> 0 <= col < 64 ->
  takes (I2cLcd.set_cursor lcd col row) 102.
Proof.
  intros Hbl Hrow Hcol. unfold I2cLcd.set_cursor. cbv zeta.
  destruct row as [|[|row]]; [| |lia]; cbn [lookup list_lookup].
  - pose proof (takes_command lcd (Z.lor 128 (0 + col)) Hbl) as H.
    rewrite (high_bit_cmd (0 + col)) in H by lia. exact H.
  - pose proof (takes_command lcd (Z.lor 128 (64 + col)) Hbl) as H.
    rewrite (high_bit_cmd (64 + col)) in H by lia. exact H.
Qed.

Lemma takes_screen (lcd : I2cLcd.t) (row0 row1 : string) :
  I2cLcd.bl lcd = I2cLcd.MASK_BL ->
  takes (I2cLcd.clear lcd ;;
         I2cLcd.set_cursor lcd 0 0 ;; I2cLcd.write lcd (center row0 LCD_COLS) ;;
         I2cLcd.set_cursor lcd 0 1 ;; I2cLcd.write lcd (center row1 LCD_COLS))%prog
        5570.
Proof.
  intros Hbl.
  apply (takes_eq _ (2102 + (102 + (102 * 16 + (102 + 102 * 16))))); [|lia].
  apply takes_bind; [exact (takes_command lcd 1 Hbl)|].
  apply takes_bind; [apply takes_set_cursor; auto; lia|].
  apply takes_bind.
  { apply (takes_eq _ (102 * len (center row0 LCD_COLS))); [now apply takes_write|].
    rewrite center_len by (unfold LCD_COLS; lia). reflexivity. }
  apply takes_bind; [apply takes_set_cursor; auto; lia|].
  apply (takes_eq _ (102 * len (center row1 LCD_COLS))); [now apply takes_write|].
  rewrite center_len by (unfold LCD_COLS; lia). reflexivity.
Qed.

Lemma melodies_nonneg (i : nat) :
  Forall (fun e : Z * Z * Z => 0 <= e.1.2 /\ 0 <= e.2) (nth i MELODIES []).
Proof.
  do 6 (destruct i as [|i]; [repeat constructor; simpl; lia|]).
  destruct i; constructor.
Qed.

Lemma melodies_length (i : nat) :
  (i < length BTN_PINS)%nat -> 360 <= play_ms (nth i MELODIES []) <= 430.
Proof.
  intros Hi. do 6 (destruct i as [|i]; [vm_compute; split; discriminate|]).
  simpl in Hi. lia.
Qed.

(** On a board without faults [play] returns after sleeping for the sum
    of the durations and gaps of its entries, when none is negative. *)
Theorem play_blocks_for_its_durations (bz : Buzzer.t) (seq : Melody) (h : Hw) :
  faults h = [] ->
  Forall (fun e : Z * Z * Z => 0 <= e.1.2 /\ 0 <= e.2) seq ->
  res (Buzzer.play bz seq h) = Ok tt /\
  clock_us (st (Buzzer.play bz seq h)) = clock_us h + 1000 * play_ms seq.
Proof.
  intros Hf Hseq. destruct (takes_play bz seq Hseq h Hf) as (Hr & _ & Hc). now split.
Qed.

Lemma play_blocks_for_its_durations_witness :
  clock_us (st (Buzzer.play (Buzzer.mk VOLUME_DUTY) START_CHIME (mkHw 0 0 0 [])))
  = 0 + 1000 * 320.
Proof.
  refine (proj2 (play_blocks_for_its_durations (Buzzer.mk VOLUME_DUTY) START_CHIME
                   (mkHw 0 0 0 []) eq_refl _)).
  repeat constructor; simpl; lia.
Defined.

(** How long a winning press blocks.  On a board without faults, for a
    game object as the constructor builds it, [_declare_winner] sleeps
    for 5570 microseconds while it draws the screen (the clear delay and
    the strobe delays of 34 bytes) and then for the length of the
    winner's melody: between 365.57 and 435.57 ms in all, spent inside
    the callback of the button. *)
Theorem winner_callback_blocks (i : nat) (w : World) :
  faults (board w) = [] -> wf (self w) -> (i < length BTN_PINS)%nat ->
  clock_us (board (st (Game._declare_winner i w)))
  = clock_us (board w) + 5570 + 1000 * play_ms (nth i MELODIES []) /\
  365570 <= clock_us (board (st (Game._declare_winner i w))) - clock_us (board w)
         <= 435570.
Proof.
  intros Hf Hwf Hi.
  assert (H : clock_us (board (st (Game._declare_winner i w)))
    = clock_us (board w) + 5570 + 1000 * play_ms (nth i MELODIES [])).
  { rewrite (declare_winner_out i w Hf Hwf Hi). cbn [st board].
    destruct (takes_screen (I2cLcd.mk LCD_ADDR LCD_COLS LCD_ROWS I2cLcd.MASK_BL)
                (nth i TEAM_NAMES "" ++ " WINS!")%string "Wait/Reset to play"
                eq_refl (board w) Hf) as (_ & Hf1 & Hc1).
    destruct (takes_play (Buzzer.mk VOLUME_DUTY) (nth i MELODIES []) (melodies_nonneg i)
                _ Hf1) as (_ & _ & Hc2).
    unfold lcd_winner. rewrite Hc2, Hc1. reflexivity. }
  split; [exact H|]. pose proof (melodies_length i Hi). lia.
Qed.

Lemma winner_callback_blocks_witness :
  faults (board power_on) = [] /\ wf (self power_on) /\ (0 < length BTN_PINS)%nat /\
  clock_us (board (st (Game._declare_winner 0 power_on)))
  = clock_us (board power_on) + 5570 + 1000 * play_ms (nth 0 MELODIES []).
Proof.
  assert (Hf : faults (board power_on) = []) by reflexivity.
  assert (Hwf : wf (self power_on)) by (repeat split; reflexivity).
  assert (Hi : (0 < length BTN_PINS)%nat) by (vm_compute; lia).
  split; [exact Hf|]. split; [exact Hwf|]. split; [exact Hi|].
  exact (proj1 (winner_callback_blocks 0 power_on Hf Hwf Hi)).
Defined.

(** ** Debounce and the wrap of the tick counter *)

Lemma ticks_diff_elapsed (a b : Z) :
  - 2 ^ 29 <= a / 1000 - b / 1000 < 2 ^ 29 ->
  ticks_diff (ticks_of_us a) (ticks_of_us b) = a / 1000 - b / 1000.
Proof.
  unfold ticks_diff, ticks_of_us, TICKS_PERIOD.
  change (2 ^ 30 / 2) with 536870912. change (2 ^ 30) with 1073741824.
  change (2 ^ 29) with 536870912.
  generalize (a / 1000) (b / 1000). intros x y Hxy.
  Z.to_euclidean_division_equations. lia.
Qed.

Lemma ticks_diff_wrapped (a b : Z) :
  2 ^ 29 <= a / 1000 - b / 1000 < 2 ^ 29 + 2 ^ 30 ->
  ticks_diff (ticks_of_us a) (ticks_of_us b) = a / 1000 - b / 1000 - 2 ^ 30.
Proof.
  unfold ticks_diff, ticks_of_us, TICKS_PERIOD.
  change (2 ^ 30 / 2) with 536870912. change (2 ^ 30) with 1073741824.
  change (2 ^ 29) with 536870912.
  generalize (a / 1000) (b / 1000). intros x y Hxy.
  Z.to_euclidean_division_equations. lia.
Qed.

(** The debounce check measures real elapsed time across a wrap of the
    tick counter, up to half its period.  After an accepted edge on
    channel [i], and as long as no other edge on the channel is
    accepted, an edge that comes [elapsed] ms later by the board's clock
    is accepted exactly when [elapsed] is at least the debounce window,
    provided [elapsed] is below 2^29 ms, whatever the tick counter did
    in between.  An edge that comes between 2^29 and 2^30 ms (about 6.2
    to 12.4 days) after the last accepted one is discarded:
    [ticks_diff] is negative there. *)
Theorem debounce_spans_tick_wrap (i : nat) (w w2 : World) :
  accepted i w ->
  calm i (st (Game._irq_btn i w)) w2 ->
  let elapsed := clock_us (board w2) / 1000 - clock_us (board w) / 1000 in
  (0 <= elapsed < 2 ^ 29 -> (accepted i w2 <-> DEBOUNCE_MS <= elapsed)) /\
  (2 ^ 29 <= elapsed < 2 ^ 30 -> ~ accepted i w2).
Proof.
  intros Ha Hc elapsed.
  assert (Ht2 : last_edge (self w2) !! i = Some (ticks_now (board w))).
  { rewrite (calm_anchor i _ _ Hc). exact (accepted_anchor i w Ha). }
  pose proof (accepted_iff i w2 _ Ht2) as Hiff. unfold ticks_now in Hiff.
  split.
  - intros He. rewrite ticks_diff_elapsed in Hiff by (fold elapsed; lia). exact Hiff.
  - intros He Ha2. apply Hiff in Ha2.
    rewrite ticks_diff_wrapped in Ha2 by (fold elapsed; lia).
    fold elapsed in Ha2. unfold DEBOUNCE_MS in Ha2. lia.
Qed.

Lemma debounce_spans_tick_wrap_witness :
  accepted 2 after_win /\
  ~ accepted 2 (idle 536870912000 (st (Game._irq_btn 2 after_win))).
Proof.
  assert (Ha : accepted 2 after_win) by (vm_compute; discriminate).
  split; [exact Ha|].
  pose proof (debounce_spans_tick_wrap 2 after_win
                (idle 536870912000 (st (Game._irq_btn 2 after_win))) Ha
                (calm_idle 2 _ _ _ (calm_here 2 _))) as H.
  cbv zeta in H. apply (proj2 H).
  vm_compute. split; [discriminate|reflexivity].
Defined.


(** ** The two-player game *)

Lemma bind_update2 {B} f (k : unit -> M TwoPlayer.World B) w :
  bind (TwoPlayer.update f) k w
  = k tt (TwoPlayer.mkWorld (f (TwoPlayer.self w)) (TwoPlayer.board w)).
Proof. unfold bind, TwoPlayer.update, modify. simpl. apply prepend_nil. Qed.

Lemma bind_get2 {A B} (f : TwoPlayer.BuzzerGame -> A) (k : A -> M TwoPlayer.World B) w :
  bind (TwoPlayer.get f) k w = k (f (TwoPlayer.self w)) w.
Proof. unfold bind, TwoPlayer.get, gets. simpl. apply prepend_nil. Qed.

Lemma bind_ticks2 {B} (k : Z -> M TwoPlayer.World B) w :
  bind (TwoPlayer.lift ticks_ms) k w = k (ticks_now (TwoPlayer.board w)) w.
Proof.
  unfold bind, TwoPlayer.lift, ticks_ms, gets. destruct w. simpl. apply prepend_nil.
Qed.

Lemma stable2_bind {A B} P (m : M TwoPlayer.World A) (k : A -> M TwoPlayer.World B) :
  stable2 P m -> (forall a, stable2 P (k a)) -> stable2 P (bind m k).
Proof.
  intros Hm Hk w Hw. unfold bind. specialize (Hm w Hw).
  destruct (res (m w)); simpl; [now apply Hk | exact Hm].
Qed.

Lemma stable2_try P (m : M TwoPlayer.World unit) (h : exn -> M TwoPlayer.World unit) :
  stable2 P m -> (forall e, stable2 P (h e)) -> stable2 P (try_except m h).
Proof.
  intros Hm Hh w Hw. unfold try_except. specialize (Hm w Hw).
  destruct (res (m w)) as [|e]; [exact Hm|].
  destruct (is_Exception e); simpl; [now apply Hh | exact Hm].
Qed.

Lemma stable2_lift {A} P (m : M Hw A) : stable2 P (TwoPlayer.lift m).
Proof. intros w Hw. exact Hw. Qed.

Lemma stable2_get {A} P (f : TwoPlayer.BuzzerGame -> A) : stable2 P (TwoPlayer.get f).
Proof. intros w Hw. exact Hw. Qed.

Lemma stable2_ret {A} P (a : A) : stable2 P (ret a).
Proof. intros w Hw. exact Hw. Qed.

Lemma stable2_print P (line : string) : stable2 P (print line).
Proof. intros w Hw. exact Hw. Qed.

Lemma stable2_update (P : TwoPlayer.BuzzerGame -> Prop) f :
  (forall g, P g -> P (f g)) -> stable2 P (TwoPlayer.update f).
Proof. intros Hf w Hw. simpl. now apply Hf. Qed.

Ltac stable2_step :=
  lazymatch goal with
  | |- stable2 _ (bind _ _) => apply stable2_bind; [|intros ?]
  | |- stable2 _ (try_except _ _) => apply stable2_try; [|intros ?]
  | |- stable2 _ (TwoPlayer.lift _) => apply stable2_lift
  | |- stable2 _ (TwoPlayer.get _) => apply stable2_get
  | |- stable2 _ (ret _) => apply stable2_ret
  | |- stable2 _ (print _) => apply stable2_print
  | |- stable2 _ (if ?b then _ else _) => destruct b
  end.

Lemma stable2_eq {A} (m : M TwoPlayer.World A) (w : TwoPlayer.World) :
  stable2 (fun g => g = TwoPlayer.self w) m ->
  TwoPlayer.self (st (m w)) = TwoPlayer.self w.
Proof. intros H. exact (H w eq_refl). Qed.

Lemma self2_bind_run {A B} (m : M TwoPlayer.World A) (k : A -> M TwoPlayer.World B)
      w a w' l :
  m w = mkOut (Ok a) w' l ->
  TwoPlayer.self (st (bind m k w)) = TwoPlayer.self (st (k a w')).
Proof. intros H. rewrite (bind_run _ _ _ _ _ _ H). reflexivity. Qed.

Lemma two_leds_run (p q : TwoPlayer.Led) (u v : Z) (w : TwoPlayer.World) :
  bind (TwoPlayer.pin_value p u) (fun _ => TwoPlayer.pin_value q v) w
  = mkOut (Ok tt) (st (TwoPlayer.pin_value q v (st (TwoPlayer.pin_value p u w))))
          (evs (TwoPlayer.pin_value p u w)
           ++ evs (TwoPlayer.pin_value q v (st (TwoPlayer.pin_value p u w)))).
Proof. destruct p, q; reflexivity. Qed.

Lemma declare_winner_self2 (name : string) (melody : Melody) (which : string)
      (w : TwoPlayer.World) :
  TwoPlayer.self (st (TwoPlayer._declare_winner name melody which w))
  = closed2 name which (ticks_now (TwoPlayer.board w)) (TwoPlayer.self w).
Proof.
  unfold TwoPlayer._declare_winner, closed2.
  rewrite !bind_update2, bind_ticks2, bind_update2.
  destruct (String.eqb which "A").
  - erewrite self2_bind_run by apply two_leds_run.
    rewrite stable2_eq by (repeat stable2_step). reflexivity.
  - erewrite self2_bind_run by apply two_leds_run.
    rewrite stable2_eq by (repeat stable2_step). reflexivity.
Qed.

Lemma reset_round_self2 (w : TwoPlayer.World) :
  TwoPlayer.self (st (TwoPlayer.reset_round w)) = reopened2 (TwoPlayer.self w).
Proof.
  unfold TwoPlayer.reset_round, TwoPlayer._leds_all_off.
  rewrite !bind_update2.
  erewrite self2_bind_run by apply two_leds_run.
  rewrite stable2_eq by (unfold TwoPlayer._play_start_chime; repeat stable2_step).
  reflexivity.
Qed.

Lemma irq_a_rejected (w : TwoPlayer.World) :
  ticks_diff (ticks_now (TwoPlayer.board w)) (TwoPlayer.last_a (TwoPlayer.self w))
    < TwoPlayer.DEBOUNCE_MS ->
  TwoPlayer._irq_a w = mkOut (Ok tt) w [].
Proof.
  intros Hlt. unfold TwoPlayer._irq_a. rewrite bind_ticks2, bind_get2.
  destruct (Z.ltb_spec (ticks_diff (ticks_now (TwoPlayer.board w))
                          (TwoPlayer.last_a (TwoPlayer.self w))) TwoPlayer.DEBOUNCE_MS);
    [reflexivity|lia].
Qed.

Lemma irq_a_accepted (w : TwoPlayer.World) :
  TwoPlayer.DEBOUNCE_MS
    <= ticks_diff (ticks_now (TwoPlayer.board w)) (TwoPlayer.last_a (TwoPlayer.self w)) ->
  TwoPlayer._irq_a w =
    let w1 := TwoPlayer.mkWorld
                (TwoPlayer.set_last_a (ticks_now (TwoPlayer.board w)) (TwoPlayer.self w))
                (TwoPlayer.board w) in
    if TwoPlayer.round_open (TwoPlayer.self w)
    then TwoPlayer._declare_winner TwoPlayer.TEAM_A_NAME TwoPlayer.MELODY_A "A" w1
    else mkOut (Ok tt) w1 [].
Proof.
  intros Hge. unfold TwoPlayer._irq_a. rewrite bind_ticks2, bind_get2.
  destruct (Z.ltb_spec (ticks_diff (ticks_now (TwoPlayer.board w))
                          (TwoPlayer.last_a (TwoPlayer.self w))) TwoPlayer.DEBOUNCE_MS);
    [lia|].
  rewrite bind_update2, bind_get2. cbv zeta.
  change (TwoPlayer.round_open (TwoPlayer.self (TwoPlayer.mkWorld _ (TwoPlayer.board w))))
    with (TwoPlayer.round_open (TwoPlayer.self w)).
  destruct (TwoPlayer.round_open (TwoPlayer.self w)); reflexivity.
Qed.

Lemma irq_b_rejected (w : TwoPlayer.World) :
  ticks_diff (ticks_now (TwoPlayer.board w)) (TwoPlayer.last_b (TwoPlayer.self w))
    < TwoPlayer.DEBOUNCE_MS ->
  TwoPlayer._irq_b w = mkOut (Ok tt) w [].
Proof.
  intros Hlt. unfold TwoPlayer._irq_b. rewrite bind_ticks2, bind_get2.
  destruct (Z.ltb_spec (ticks_diff (ticks_now (TwoPlayer.board w))
                          (TwoPlayer.last_b (TwoPlayer.self w))) TwoPlayer.DEBOUNCE_MS);
    [reflexivity|lia].
Qed.

Lemma irq_b_accepted (w : TwoPlayer.World) :
  TwoPlayer.DEBOUNCE_MS
    <= ticks_diff (ticks_now (TwoPlayer.board w)) (TwoPlayer.last_b (TwoPlayer.self w)) ->
  TwoPlayer._irq_b w =
    let w1 := TwoPlayer.mkWorld
                (TwoPlayer.set_last_b (ticks_now (TwoPlayer.board w)) (TwoPlayer.self w))
                (TwoPlayer.board w) in
    if TwoPlayer.round_open (TwoPlayer.self w)
    then TwoPlayer._declare_winner TwoPlayer.TEAM_B_NAME TwoPlayer.MELODY_B "B" w1
    else mkOut (Ok tt) w1 [].
Proof.
  intros Hge. unfold TwoPlayer._irq_b. rewrite bind_ticks2, bind_get2.
  destruct (Z.ltb_spec (ticks_diff (ticks_now (TwoPlayer.board w))
                          (TwoPlayer.last_b (TwoPlayer.self w))) TwoPlayer.DEBOUNCE_MS);
    [lia|].
  rewrite bind_update2, bind_get2. cbv zeta.
  change (TwoPlayer.round_open (TwoPlayer.self (TwoPlayer.mkWorld _ (TwoPlayer.board w))))
    with (TwoPlayer.round_open (TwoPlayer.self w)).
  destruct (TwoPlayer.round_open (TwoPlayer.self w)); reflexivity.
Qed.

Lemma stable2_declare_winner (P : TwoPlayer.BuzzerGame -> Prop) name melody which :
  (forall g now, P g -> P (closed2 name which now g)) ->
  stable2 P (TwoPlayer._declare_winner name melody which).
Proof. intros H w Hw. rewrite declare_winner_self2. now apply H. Qed.

Lemma stable2_reset_round (P : TwoPlayer.BuzzerGame -> Prop) :
  (forall g, P g -> P (reopened2 g)) -> stable2 P TwoPlayer.reset_round.
Proof. intros H w Hw. rewrite reset_round_self2. now apply H. Qed.

Lemma stable2_irq_a (P : TwoPlayer.BuzzerGame -> Prop) :
  (forall g now, P g -> P (TwoPlayer.set_last_a now g)) ->
  (forall g now, P g -> P (closed2 TwoPlayer.TEAM_A_NAME "A" now g)) ->
  stable2 P TwoPlayer._irq_a.
Proof.
  intros He Hc. unfold TwoPlayer._irq_a.
  repeat first
    [ stable2_step
    | apply stable2_declare_winner; exact Hc
    | apply stable2_update; intros g; apply He ].
Qed.

Lemma stable2_irq_b (P : TwoPlayer.BuzzerGame -> Prop) :
  (forall g now, P g -> P (TwoPlayer.set_last_b now g)) ->
  (forall g now, P g -> P (closed2 TwoPlayer.TEAM_B_NAME "B" now g)) ->
  stable2 P TwoPlayer._irq_b.
Proof.
  intros He Hc. unfold TwoPlayer._irq_b.
  repeat first
    [ stable2_step
    | apply stable2_declare_winner; exact Hc
    | apply stable2_update; intros g; apply He ].
Qed.

Lemma stable2_irq_r (P : TwoPlayer.BuzzerGame -> Prop) :
  (forall g now, P g -> P (TwoPlayer.set_last_r now g)) ->
  (forall g, P g -> P (TwoPlayer.set_reset_requested true g)) ->
  stable2 P TwoPlayer._irq_r.
Proof.
  intros Hr Hq. unfold TwoPlayer._irq_r.
  repeat first
    [ stable2_step
    | apply stable2_update; intros g; first [apply Hr | apply Hq] ].
Qed.

Lemma stable2_loop_iter (P : TwoPlayer.BuzzerGame -> Prop) (held : nat) :
  (forall g now, P g -> P (TwoPlayer.set_last_reset_handled now g)) ->
  (forall g, P g -> P (TwoPlayer.set_reset_requested false g)) ->
  (forall g, P g -> P (reopened2 g)) ->
  stable2 P (TwoPlayer.loop_iter held).
Proof.
  intros Hh Hq Hr. unfold TwoPlayer.loop_iter.
  repeat first
    [ stable2_step
    | apply stable2_reset_round; exact Hr
    | apply stable2_update; intros g; first [apply Hh | apply Hq] ].
Qed.

Lemma boot_self2 (h : Hw) (w : TwoPlayer.World) :
  res (TwoPlayer.__init__ h) = Ok w ->
  TwoPlayer.self w = TwoPlayer.self power_on2.
Proof.
  unfold TwoPlayer.__init__. cbv zeta.
  match goal with |- context [res (bind ?m ?k h)] => set (o := bind m k h) end.
  assert (Ho : forall d bz, res o = Ok (d, bz) ->
            d = I2cLcd.mk LCD_ADDR LCD_COLS LCD_ROWS I2cLcd.MASK_BL /\
            bz = Buzzer.mk VOLUME_DUTY).
  { intros d bz. subst o. unfold bind at 1.
    destruct (res (I2cLcd.__init__ LCD_ADDR LCD_COLS LCD_ROWS h)) as [d'|e] eqn:Hd;
      simpl; [|discriminate].
    apply lcd_init_returns in Hd. unfold bind.
    match goal with |- context [res (Buzzer.__init__ ?v ?s')] =>
      destruct (res (Buzzer.__init__ v s')) as [bz'|e] eqn:Hb end;
      simpl; [|discriminate].
    apply buzzer_init_returns in Hb.
    intros H. apply Ok_inj in H. injection H as <- <-. subst d' bz'.
    split; reflexivity. }
  destruct (res o) as [[d bz]|e]; [|discriminate].
  destruct (Ho d bz eq_refl) as [-> ->].
  match goal with |- context [res (bind ?m ?k ?w0)] => set (o' := bind m k w0) end.
  assert (Hs : TwoPlayer.self (st o') = TwoPlayer.self power_on2).
  { subst o'. unfold TwoPlayer._leds_all_off.
    erewrite self2_bind_run by apply two_leds_run.
    rewrite stable2_eq by (unfold TwoPlayer._play_start_chime; repeat stable2_step).
    reflexivity. }
  destruct (res o'); cbn [res]; [|discriminate].
  intros H. apply Ok_inj in H. rewrite <- H, Hs. reflexivity.
Qed.

Lemma boot_power_on2 : res (TwoPlayer.__init__ (mkHw 0 0 0 [])) = Ok power_on2.
Proof. vm_compute. reflexivity. Qed.

Lemma stable2_led_off (P : TwoPlayer.BuzzerGame -> Prop) (pin_obj : TwoPlayer.Led) :
  (forall g g', loop_store2 g g' -> P g -> P g') ->
  stable2 P (TwoPlayer._led_off pin_obj).
Proof.
  intros H w Hw. destruct pin_obj; simpl.
  - exact (H _ _ (store2_ledA_off (TwoPlayer.self w)) Hw).
  - exact (H _ _ (store2_ledB_off (TwoPlayer.self w)) Hw).
Qed.

(** A pass of the two-player loop changes the game object by these
    stores only, whatever the board does. *)
Lemma stable2_loop_iter_stores (P : TwoPlayer.BuzzerGame -> Prop) (held : nat) :
  (forall g g', loop_store2 g g' -> P g -> P g') ->
  stable2 P (TwoPlayer.loop_iter held).
Proof.
  intros H.
  unfold TwoPlayer.loop_iter, TwoPlayer.reset_round, TwoPlayer._leds_all_off,
    TwoPlayer._play_start_chime.
  repeat first
    [ stable2_step
    | apply stable2_led_off; exact H
    | apply stable2_update; intros g Hg; refine (H _ _ _ Hg); constructor ].
Qed.

Lemma interleaved2_loop_iter (held : nat) (w : TwoPlayer.World) :
  interleaved2 (TwoPlayer.self w) ->
  interleaved2 (TwoPlayer.self (st (TwoPlayer.loop_iter held w))).
Proof.
  apply (stable2_loop_iter_stores interleaved2).
  intros g g' Hs Hg. exact (il2_store g g' Hg Hs).
Qed.

Lemma interleaved2_inv (P : TwoPlayer.BuzzerGame -> Prop) :
  P (TwoPlayer.self power_on2) ->
  (forall g now, P g -> P (TwoPlayer.set_last_a now g)) ->
  (forall g now, P g -> P (TwoPlayer.set_last_b now g)) ->
  (forall g now, P g -> P (closed2 TwoPlayer.TEAM_A_NAME "A" now g)) ->
  (forall g now, P g -> P (closed2 TwoPlayer.TEAM_B_NAME "B" now g)) ->
  (forall g now, P g -> P (TwoPlayer.set_last_r now g)) ->
  (forall g, P g -> P (TwoPlayer.set_reset_requested true g)) ->
  (forall g g', loop_store2 g g' -> P g -> P g') ->
  forall g, interleaved2 g -> P g.
Proof.
  intros Hboot Ha Hb Hca Hcb Hr Hq Hs g Hg.
  induction Hg as [h w Hb0 | b g _ IH | b g _ IH | b g _ IH | g g' _ IH Hst].
  - now rewrite (boot_self2 h w Hb0).
  - apply stable2_irq_a; auto.
  - apply stable2_irq_b; auto.
  - apply stable2_irq_r; auto.
  - exact (Hs g g' Hst IH).
Qed.

(** With callbacks served anywhere inside the passes of the two-player
    loop, the game object never has both LEDs on at a point of the loop
    or between two callbacks: each LED carries the active or the
    inactive level, and not both the active one.  The LED pins stay GP12
    and GP13, and a recorded winner is Team 1 or Team 2.  This holds
    under any faults of the display and the buzzer.  The winner's LED
    itself need not be on: the loop may write it off after the callback
    that lit it. *)
Theorem two_player_never_both_leds_lit (g : TwoPlayer.BuzzerGame) :
  interleaved2 g ->
  ~ (level (TwoPlayer.ledA g) = TwoPlayer.ON /\ level (TwoPlayer.ledB g) = TwoPlayer.ON) /\
  (level (TwoPlayer.ledA g) = TwoPlayer.ON \/ level (TwoPlayer.ledA g) = TwoPlayer.OFF) /\
  (level (TwoPlayer.ledB g) = TwoPlayer.ON \/ level (TwoPlayer.ledB g) = TwoPlayer.OFF) /\
  gpio (TwoPlayer.ledA g) = TwoPlayer.LED_A_PIN /\
  gpio (TwoPlayer.ledB g) = TwoPlayer.LED_B_PIN /\
  (TwoPlayer.winner g = None \/
   TwoPlayer.winner g = Some TwoPlayer.TEAM_A_NAME \/
   TwoPlayer.winner g = Some TwoPlayer.TEAM_B_NAME).
Proof.
  revert g. apply interleaved2_inv.
  - simpl. repeat split; auto. intros [H _]. revert H. vm_compute. discriminate.
  - intros g now H. exact H.
  - intros g now H. exact H.
  - intros g now (_ & _ & _ & Ha & Hb & _). simpl. repeat split; auto.
    intros [_ H]. revert H. vm_compute. discriminate.
  - intros g now (_ & _ & _ & Ha & Hb & _). simpl. repeat split; auto.
    intros [H _]. revert H. vm_compute. discriminate.
  - intros g now H. exact H.
  - intros g H. exact H.
  - intros g g' Hs (Hn & HA & HB & Ha & Hb & Hw).
    destruct Hs as [now g | g | g | g | g | g]; simpl;
      try (repeat split; solve [assumption | auto]).
    + repeat split; auto. intros [H _]. revert H. vm_compute. discriminate.
    + repeat split; auto. intros [_ H]. revert H. vm_compute. discriminate.
Qed.

(** The state a press served inside [reset_round] leaves in the
    two-player game: the round is closed on Team 1 and both LEDs are
    off. *)
Lemma two_player_never_both_leds_lit_witness :
  interleaved2 raced_win2 /\
  TwoPlayer.round_open raced_win2 = false /\
  TwoPlayer.winner raced_win2 = Some TwoPlayer.TEAM_A_NAME /\
  level (TwoPlayer.ledA raced_win2) = TwoPlayer.OFF /\
  level (TwoPlayer.ledB raced_win2) = TwoPlayer.OFF /\
  ~ (level (TwoPlayer.ledA raced_win2) = TwoPlayer.ON /\
     level (TwoPlayer.ledB raced_win2) = TwoPlayer.ON).
Proof.
  assert (Hr : interleaved2 raced_win2).
  { unfold raced_win2. cbv zeta.
    eapply il2_store; [|apply store2_ledB_off].
    eapply il2_store; [|apply store2_ledA_off].
    apply il2_a.
    eapply il2_store; [|apply store2_winner].
    eapply il2_store; [|apply store2_round_open].
    apply (il2_a (TwoPlayer.board power_on2) (TwoPlayer.self power_on2)).
    exact (il2_boot _ _ boot_power_on2). }
  split; [exact Hr|].
  split; [vm_compute; reflexivity|]. split; [vm_compute; reflexivity|].
  split; [vm_compute; reflexivity|]. split; [vm_compute; reflexivity|].
  exact (proj1 (two_player_never_both_leds_lit raced_win2 Hr)).
Defined.

(** First press wins in the two-player game.  A press on button A that
    passes the debounce check records its tick as the timestamp of A
    and leaves the timestamp of B alone.  In an open round it closes the
    round with Team 1 the winner at that tick, LED A written with the
    active level and LED B with the inactive one, whatever the display
    and the buzzer do afterwards; in a closed round the winner and both
    LEDs stay as they were.  The same holds for button B with the roles
    of the teams and LEDs exchanged. *)
Theorem two_player_first_press_wins (w : TwoPlayer.World) :
  (TwoPlayer.DEBOUNCE_MS
     <= ticks_diff (ticks_now (TwoPlayer.board w)) (TwoPlayer.last_a (TwoPlayer.self w)) ->
   let g' := TwoPlayer.self (st (TwoPlayer._irq_a w)) in
   TwoPlayer.last_a g' = ticks_now (TwoPlayer.board w) /\
   TwoPlayer.last_b g' = TwoPlayer.last_b (TwoPlayer.self w) /\
   (TwoPlayer.round_open (TwoPlayer.self w) = true ->
      TwoPlayer.round_open g' = false /\
      TwoPlayer.winner g' = Some TwoPlayer.TEAM_A_NAME /\
      TwoPlayer.win_ts g' = ticks_now (TwoPlayer.board w) /\
      level (TwoPlayer.ledA g') = TwoPlayer.ON /\
      level (TwoPlayer.ledB g') = TwoPlayer.OFF) /\
   (TwoPlayer.round_open (TwoPlayer.self w) = false ->
      TwoPlayer.round_open g' = false /\
      TwoPlayer.winner g' = TwoPlayer.winner (TwoPlayer.self w) /\
      TwoPlayer.ledA g' = TwoPlayer.ledA (TwoPlayer.self w) /\
      TwoPlayer.ledB g' = TwoPlayer.ledB (TwoPlayer.self w))) /\
  (TwoPlayer.DEBOUNCE_MS
     <= ticks_diff (ticks_now (TwoPlayer.board w)) (TwoPlayer.last_b (TwoPlayer.self w)) ->
   let g' := TwoPlayer.self (st (TwoPlayer._irq_b w)) in
   TwoPlayer.last_b g' = ticks_now (TwoPlayer.board w) /\
   TwoPlayer.last_a g' = TwoPlayer.last_a (TwoPlayer.self w) /\
   (TwoPlayer.round_open (TwoPlayer.self w) = true ->
      TwoPlayer.round_open g' = false /\
      TwoPlayer.winner g' = Some TwoPlayer.TEAM_B_NAME /\
      TwoPlayer.win_ts g' = ticks_now (TwoPlayer.board w) /\
      level (TwoPlayer.ledB g') = TwoPlayer.ON /\
      level (TwoPlayer.ledA g') = TwoPlayer.OFF) /\
   (TwoPlayer.round_open (TwoPlayer.self w) = false ->
      TwoPlayer.round_open g' = false /\
      TwoPlayer.winner g' = TwoPlayer.winner (TwoPlayer.self w) /\
      TwoPlayer.ledA g' = TwoPlayer.ledA (TwoPlayer.self w) /\
      TwoPlayer.ledB g' = TwoPlayer.ledB (TwoPlayer.self w))).
Proof.
  split; intros Hge g'; subst g'.
  - rewrite (irq_a_accepted w Hge). cbv zeta.
    destruct (TwoPlayer.round_open (TwoPlayer.self w)) eqn:Hro.
    + rewrite declare_winner_self2. simpl. repeat split; discriminate.
    + simpl. repeat split; try discriminate; auto.
  - rewrite (irq_b_accepted w Hge). cbv zeta.
    destruct (TwoPlayer.round_open (TwoPlayer.self w)) eqn:Hro.
    + rewrite declare_winner_self2. simpl. repeat split; discriminate.
    + simpl. repeat split; try discriminate; auto.
Qed.

Lemma two_player_first_press_wins_witness :
  TwoPlayer.DEBOUNCE_MS
    <= ticks_diff (ticks_now (TwoPlayer.board power_on2))
                  (TwoPlayer.last_a (TwoPlayer.self power_on2)) /\
  TwoPlayer.round_open (TwoPlayer.self power_on2) = true /\
  TwoPlayer.winner (TwoPlayer.self (st (TwoPlayer._irq_a power_on2)))
  = Some TwoPlayer.TEAM_A_NAME.
Proof.
  assert (Hge : TwoPlayer.DEBOUNCE_MS
    <= ticks_diff (ticks_now (TwoPlayer.board power_on2))
                  (TwoPlayer.last_a (TwoPlayer.self power_on2)))
    by (vm_compute; discriminate).
  split; [exact Hge|]. split; [reflexivity|].
  pose proof (proj1 (two_player_first_press_wins power_on2) Hge) as H.
  cbv zeta in H. destruct H as (_ & _ & H & _).
  exact (proj1 (proj2 (H eq_refl))).
Defined.

Lemma accepted_a_iff (w : TwoPlayer.World) :
  accepted_a w <->
  TwoPlayer.DEBOUNCE_MS
    <= ticks_diff (ticks_now (TwoPlayer.board w)) (TwoPlayer.last_a (TwoPlayer.self w)).
Proof.
  unfold accepted_a.
  destruct (Z.lt_ge_cases
              (ticks_diff (ticks_now (TwoPlayer.board w))
                 (TwoPlayer.last_a (TwoPlayer.self w))) TwoPlayer.DEBOUNCE_MS)
    as [Hlt|Hge].
  - rewrite (irq_a_rejected w Hlt). simpl. split; [congruence|lia].
  - split; [intros _; exact Hge|]. intros _ Heq.
    assert (Hl : TwoPlayer.last_a (TwoPlayer.self (st (TwoPlayer._irq_a w)))
                 = ticks_now (TwoPlayer.board w)).
    { rewrite (irq_a_accepted w Hge). cbv zeta.
      destruct (TwoPlayer.round_open (TwoPlayer.self w)).
      - rewrite declare_winner_self2. reflexivity.
      - reflexivity. }
    rewrite Heq in Hl. rewrite Hl, ticks_diff_self in Hge.
    unfold TwoPlayer.DEBOUNCE_MS in Hge. lia.
Qed.

Lemma calm_a_anchor (w w' : TwoPlayer.World) :
  calm_a w w' ->
  TwoPlayer.last_a (TwoPlayer.self w') = TwoPlayer.last_a (TwoPlayer.self w).
Proof.
  induction 1 as [w | w w' _ IH Hn | w w' _ IH | w w' _ IH
                 | held w w' _ IH | us w w' _ IH].
  - reflexivity.
  - unfold accepted_a in Hn.
    destruct (decide (TwoPlayer.last_a (TwoPlayer.self (st (TwoPlayer._irq_a w')))
                      = TwoPlayer.last_a (TwoPlayer.self w'))) as [E|E];
      [now rewrite E|].
    destruct Hn. intros Heq. apply E. now rewrite Heq.
  - revert IH.
    apply (stable2_irq_b
             (fun g => TwoPlayer.last_a g = TwoPlayer.last_a (TwoPlayer.self w)));
      intros g now Hg; exact Hg.
  - revert IH.
    apply (stable2_irq_r
             (fun g => TwoPlayer.last_a g = TwoPlayer.last_a (TwoPlayer.self w)));
      intros; assumption.
  - revert IH.
    apply (stable2_loop_iter
             (fun g => TwoPlayer.last_a g = TwoPlayer.last_a (TwoPlayer.self w)));
      intros; assumption.
  - exact IH.
Qed.

(** The debounce anchor of [_irq_a].  An edge on button A is accepted
    exactly when it comes at least 100 ms after the timestamp kept for
    A; a discarded edge changes nothing, an accepted one makes its own
    tick the timestamp.  Edges on button B and on the reset button,
    accepted or not, and passes of the loop never move the timestamp of
    A.  So after an accepted edge on A, and until the next accepted edge
    on A, an edge on A is accepted exactly when it is at least 100 ms
    after that accepted edge, however many edges were discarded in
    between. *)
Theorem two_player_debounce_anchor (w w2 : TwoPlayer.World) :
  accepted_a w ->
  calm_a (st (TwoPlayer._irq_a w)) w2 ->
  TwoPlayer.last_a (TwoPlayer.self w2) = ticks_now (TwoPlayer.board w) /\
  (accepted_a w2 <->
   TwoPlayer.DEBOUNCE_MS
     <= ticks_diff (ticks_now (TwoPlayer.board w2)) (ticks_now (TwoPlayer.board w))) /\
  (~ accepted_a w2 -> TwoPlayer._irq_a w2 = mkOut (Ok tt) w2 []).
Proof.
  intros Ha Hc.
  assert (Hl : TwoPlayer.last_a (TwoPlayer.self w2) = ticks_now (TwoPlayer.board w)).
  { rewrite (calm_a_anchor _ _ Hc).
    apply accepted_a_iff in Ha. rewrite (irq_a_accepted w Ha). cbv zeta.
    destruct (TwoPlayer.round_open (TwoPlayer.self w)).
    - rewrite declare_winner_self2. reflexivity.
    - reflexivity. }
  split; [exact Hl|]. split.
  - rewrite <- Hl. apply accepted_a_iff.
  - intros Hn. apply irq_a_rejected.
    destruct (Z.lt_ge_cases
                (ticks_diff (ticks_now (TwoPlayer.board w2))
                   (TwoPlayer.last_a (TwoPlayer.self w2))) TwoPlayer.DEBOUNCE_MS)
      as [Hlt|Hge]; [exact Hlt|].
    destruct Hn. now apply accepted_a_iff.
Qed.

Lemma two_player_debounce_anchor_witness :
  accepted_a after_win2 /\ ~ accepted_a after_bounces2.
Proof.
  assert (Ha : accepted_a after_win2).
  { apply accepted_a_iff. vm_compute. discriminate. }
  split; [exact Ha|].
  assert (Hc : calm_a (st (TwoPlayer._irq_a after_win2)) after_bounces2).
  { apply calm_a_idle, calm_a_b, calm_a_idle, calm_a_bounce;
      [apply calm_a_idle, calm_a_here|].
    intros H. apply accepted_a_iff in H. revert H. vm_compute. intros H. now apply H. }
  intros H.
  apply (proj1 (proj2 (two_player_debounce_anchor after_win2 after_bounces2 Ha Hc))) in H.
  revert H. vm_compute. intros H. now apply H.
Defined.
